(** * Live speech translation pipeline: segmentation, relay and session control

    A shallow embedding of the two views of the application

    - the default view (Web Speech recogniser, [App] of the first source
      part): [recognition.onresult], the four [useEffect] processes and
      [handleStartStop];
    - the iPhone view ([IphoneTranslateView.tsx] with the hooks
      [useElevenLabsScribe.ts] and [useElevenLabs.ts]).

    React state and refs become record fields; an event handler becomes a
    function on the record; the browser side (pending fetches, utterances
    and their safety timers, [localStorage], the requests sent out) is kept
    in explicit fields so that statements about calls in flight can be
    written down.  An effect is run after exactly those handlers that set
    one of its dependencies. *)

From Stdlib Require Import Ascii String ZArith Lia DecimalString.

From stdpp Require Import base list strings gmap.

#[local] Set Warnings "-register-all".


(** ** JavaScript string primitives used by the source *)

Module JsString.

(** Code units are modelled as [ascii] (the Latin-1 range).  In that range
    the characters matched by [\s] and stripped by [trim()] are TAB, LF, VT,
    FF, CR, SPACE and NBSP. *)
Definition is_space (c : ascii) : bool :=
  match c with
  | "009" | "010" | "011" | "012" | "013" | " " | "160" => true
  | _ => false
  end%char.

(** JS truthiness of a string: non-empty. *)
Definition truthy (s : string) : bool :=
  match s with
  | EmptyString => false
  | String _ _ => true
  end.

Fixpoint trimStart (s : string) : string :=
  match s with
  | EmptyString => EmptyString
  | String c r => if is_space c then trimStart r else s
  end.

Fixpoint trimEnd (s : string) : string :=
  match s with
  | EmptyString => EmptyString
  | String c r =>
      match trimEnd r with
      | EmptyString => if is_space c then EmptyString else String c EmptyString
      | r' => String c r'
      end
  end.

(** [s.trim()] *)
Definition trim (s : string) : string := trimEnd (trimStart s).

(** [s.startsWith(p)] *)
Fixpoint startsWith (s p : string) : bool :=
  match p, s with
  | EmptyString, _ => true
  | String _ _, EmptyString => false
  | String a p', String b s' => if Ascii.eqb a b then startsWith s' p' else false
  end.

(** [s.substring(n)] for [0 <= n] *)
Fixpoint substring (n : nat) (s : string) : string :=
  match n, s with
  | O, _ => s
  | S _, EmptyString => EmptyString
  | S n', String _ r => substring n' r
  end.

Definition starts_with_space (s : string) : bool :=
  match s with
  | EmptyString => false
  | String c _ => is_space c
  end.

(** [s.split(/\s+/)]: the pieces between maximal runs of white space.  A
    string that begins (ends) with white space yields a leading (trailing)
    empty piece; the empty string yields one empty piece. *)
Fixpoint split_ws (s : string) : list string :=
  match s with
  | EmptyString => [EmptyString]
  | String c r =>
      if is_space c then
        match r with
        | EmptyString => [EmptyString; EmptyString]
        | String _ _ =>
            if starts_with_space r then split_ws r
            else EmptyString :: split_ws r
        end
      else
        match split_ws r with
        | p :: ps => String c p :: ps
        | [] => [String c EmptyString]
        end
  end.

(** [s.split(/\s+/).filter(w => w.length > 0)] *)
Definition words (s : string) : list string :=
  List.filter truthy (split_ws s).

(** [ws.join(' ')] *)
Fixpoint join (ws : list string) : string :=
  match ws with
  | [] => EmptyString
  | [w] => w
  | w :: rest => w +:+ " " +:+ join rest
  end.

(** [a.slice(i, j)], [a.slice(i)] and [a.slice(-k)] on arrays, for
    non-negative [i <= j] and [k]. *)
Definition slice {A} (i j : nat) (a : list A) : list A := take (j - i) (drop i a).
Definition slice_from {A} (i : nat) (a : list A) : list A := drop i a.
Definition slice_last {A} (k : nat) (a : list A) : list A := drop (length a - k) a.

(** A word: non-empty and free of white space. *)
Fixpoint no_space (s : string) : bool :=
  match s with
  | EmptyString => true
  | String c r => negb (is_space c) && no_space r
  end.

Definition is_word (s : string) : bool := truthy s && no_space s.

(** Number of words of a phrase, as the segmenter itself would count them. *)
Definition word_count (s : string) : nat := length (words s).

End JsString.

Import JsString.

(** ** JSON payloads and the two ways the views read a translation out of one *)

Module Json.

(** The body of a translation response, as [response.json()] yields it.
    Numbers are modelled as integers (those JS prints in plain decimal). *)
Inductive json :=
| JNull
| JBool (b : bool)
| JNum (n : Z)
| JStr (s : string)
| JArr (l : list json)
| JObj (l : list (string * json)).

(** A JS value reachable from a payload: a JSON value or [undefined]. *)
Inductive value :=
| VUndefined
| VJson (j : json).

(** Own property lookup in a parsed object: the last duplicate key wins. *)
Fixpoint obj_get (k : string) (l : list (string * json)) : option json :=
  match l with
  | [] => None
  | (k', j) :: rest =>
      match obj_get k rest with
      | Some j' => Some j'
      | None => if String.eqb k k' then Some j else None
      end
  end.

(** [v[0]]; [None] stands for the TypeError thrown on [undefined] and
    [null]. *)
Definition index0 (v : value) : option value :=
  match v with
  | VUndefined => None
  | VJson JNull => None
  | VJson (JArr l) =>
      Some (match l with x :: _ => VJson x | [] => VUndefined end)
  | VJson (JStr s) =>
      Some (match s with
            | String c _ => VJson (JStr (String c EmptyString))
            | EmptyString => VUndefined
            end)
  | VJson (JObj l) =>
      Some (match obj_get "0" l with Some j => VJson j | None => VUndefined end)
  | VJson (JBool _) | VJson (JNum _) => Some VUndefined
  end.

Definition num_to_string (n : Z) : string :=
  DecimalString.NilZero.string_of_int (Z.to_int n).

Fixpoint join_with (sep : string) (l : list string) : string :=
  match l with
  | [] => EmptyString
  | [x] => x
  | x :: rest => x +:+ sep +:+ join_with sep rest
  end.

(** [String(j)] as [Array.prototype.join] applies it to an element. *)
Fixpoint to_string (j : json) : string :=
  match j with
  | JNull => "null"
  | JBool true => "true"
  | JBool false => "false"
  | JNum n => num_to_string n
  | JStr s => s
  | JArr l =>
      join_with ","
        ((fix elems (l : list json) : list string :=
            match l with
            | [] => []
            | JNull :: r => EmptyString :: elems r
            | x :: r => to_string x :: elems r
            end) l)
  | JObj _ => "[object Object]"
  end.

(** The string [join] contributes for one element: [undefined] and [null]
    give the empty string. *)
Definition join_elem (v : value) : string :=
  match v with
  | VUndefined => EmptyString
  | VJson JNull => EmptyString
  | VJson j => to_string j
  end.

(** [segs.map(segment => segment[0])]; [None] when some [segment[0]]
    throws. *)
Fixpoint map_index0 (segs : list json) : option (list value) :=
  match segs with
  | [] => Some []
  | seg :: rest =>
      match index0 (VJson seg) with
      | None => None
      | Some v =>
          match map_index0 rest with
          | None => None
          | Some vs => Some (v :: vs)
          end
      end
  end.

(** Default view: [data[0][0][0]]. *)
Definition extract_default (data : json) : option value :=
  match index0 (VJson data) with
  | None => None
  | Some d0 =>
      match index0 d0 with
      | None => None
      | Some d00 => index0 d00
      end
  end.

(** iPhone view: [data[0].map((segment) => segment[0]).join('')].  Only an
    array has a callable [map]. *)
Definition extract_iphone (data : json) : option value :=
  match index0 (VJson data) with
  | Some (VJson (JArr segs)) =>
      match map_index0 segs with
      | Some vs => Some (VJson (JStr (join_with "" (List.map join_elem vs))))
      | None => None
      end
  | _ => None
  end.

End Json.

Import Json.

(** ** The translation and playback stages (Process 3 and Process 4 of the
    default view; Process 1 and Process 2 of the iPhone view) *)

Inductive Variant := DefaultView | IphoneView.

(** What the translation [fetch] settles with. *)
Inductive Response :=
| NetworkError                              (* fetch rejects *)
| Http (ok : bool) (body : option json).    (* [body = None]: response.json() rejects *)

(** A translation request handed to the browser. *)
Record Fetch := {
  f_lang : string;
  f_phrase : string;
  f_pending : bool }.

(** An utterance handed to [speechSynthesis.speak], with its safety timer. *)
Record Utterance := {
  u_text : value;
  u_timer : bool;     (* safetyTimeout armed: neither fired nor cleared *)
  u_live : bool }.    (* the engine has not yet signalled onend / onerror *)

Record Pipeline := {
  phraseArray : list string;
  translatedArray : list value;
  currentTranslation : value;
  recentTranslations : list value;
  selectedLanguage : string;
  isTranslatingRef : bool;
  isSpeakingRef : bool;
  (* browser side *)
  fetches : list Fetch;
  utterances : list Utterance }.

Definition set_phraseArray (v : list string) (p : Pipeline) : Pipeline :=
  {| phraseArray := v; translatedArray := translatedArray p;
     currentTranslation := currentTranslation p;
     recentTranslations := recentTranslations p;
     selectedLanguage := selectedLanguage p;
     isTranslatingRef := isTranslatingRef p; isSpeakingRef := isSpeakingRef p;
     fetches := fetches p; utterances := utterances p |}.

Definition set_translatedArray (v : list value) (p : Pipeline) : Pipeline :=
  {| phraseArray := phraseArray p; translatedArray := v;
     currentTranslation := currentTranslation p;
     recentTranslations := recentTranslations p;
     selectedLanguage := selectedLanguage p;
     isTranslatingRef := isTranslatingRef p; isSpeakingRef := isSpeakingRef p;
     fetches := fetches p; utterances := utterances p |}.

Definition set_currentTranslation (v : value) (p : Pipeline) : Pipeline :=
  {| phraseArray := phraseArray p; translatedArray := translatedArray p;
     currentTranslation := v;
     recentTranslations := recentTranslations p;
     selectedLanguage := selectedLanguage p;
     isTranslatingRef := isTranslatingRef p; isSpeakingRef := isSpeakingRef p;
     fetches := fetches p; utterances := utterances p |}.

Definition set_recentTranslations (v : list value) (p : Pipeline) : Pipeline :=
  {| phraseArray := phraseArray p; translatedArray := translatedArray p;
     currentTranslation := currentTranslation p;
     recentTranslations := v;
     selectedLanguage := selectedLanguage p;
     isTranslatingRef := isTranslatingRef p; isSpeakingRef := isSpeakingRef p;
     fetches := fetches p; utterances := utterances p |}.

Definition set_selectedLanguage (v : string) (p : Pipeline) : Pipeline :=
  {| phraseArray := phraseArray p; translatedArray := translatedArray p;
     currentTranslation := currentTranslation p;
     recentTranslations := recentTranslations p;
     selectedLanguage := v;
     isTranslatingRef := isTranslatingRef p; isSpeakingRef := isSpeakingRef p;
     fetches := fetches p; utterances := utterances p |}.

Definition set_isTranslatingRef (v : bool) (p : Pipeline) : Pipeline :=
  {| phraseArray := phraseArray p; translatedArray := translatedArray p;
     currentTranslation := currentTranslation p;
     recentTranslations := recentTranslations p;
     selectedLanguage := selectedLanguage p;
     isTranslatingRef := v; isSpeakingRef := isSpeakingRef p;
     fetches := fetches p; utterances := utterances p |}.

Definition set_isSpeakingRef (v : bool) (p : Pipeline) : Pipeline :=
  {| phraseArray := phraseArray p; translatedArray := translatedArray p;
     currentTranslation := currentTranslation p;
     recentTranslations := recentTranslations p;
     selectedLanguage := selectedLanguage p;
     isTranslatingRef := isTranslatingRef p; isSpeakingRef := v;
     fetches := fetches p; utterances := utterances p |}.

Definition set_fetches (v : list Fetch) (p : Pipeline) : Pipeline :=
  {| phraseArray := phraseArray p; translatedArray := translatedArray p;
     currentTranslation := currentTranslation p;
     recentTranslations := recentTranslations p;
     selectedLanguage := selectedLanguage p;
     isTranslatingRef := isTranslatingRef p; isSpeakingRef := isSpeakingRef p;
     fetches := v; utterances := utterances p |}.

Definition set_utterances (v : list Utterance) (p : Pipeline) : Pipeline :=
  {| phraseArray := phraseArray p; translatedArray := translatedArray p;
     currentTranslation := currentTranslation p;
     recentTranslations := recentTranslations p;
     selectedLanguage := selectedLanguage p;
     isTranslatingRef := isTranslatingRef p; isSpeakingRef := isSpeakingRef p;
     fetches := fetches p; utterances := v |}.

(** The component as first rendered, with nothing handed to the browser. *)
Definition initial_pipeline : Pipeline :=
  {| phraseArray := []; translatedArray := [];
     currentTranslation := VJson (JStr EmptyString);
     recentTranslations := [];
     selectedLanguage := "lv";
     isTranslatingRef := false; isSpeakingRef := false;
     fetches := []; utterances := [] |}.

(** The [try] block of [translateNextPhrase] up to the extraction of
    [translation]; [None] when it throws. *)
Definition try_translate (v : Variant) (r : Response) : option value :=
  match r with
  | NetworkError => None
  | Http false _ => None                       (* throw new Error('Translation failed') *)
  | Http true None => None
  | Http true (Some data) =>
      match v with
      | DefaultView => extract_default data
      | IphoneView => extract_iphone data
      end
  end.

(** The translation effect, deps [[phraseArray, selectedLanguage]]. *)
Definition translate_effect (p : Pipeline) : Pipeline :=
  match phraseArray p with
  | [] => p
  | phrase :: _ =>
      if isTranslatingRef p then p
      else
        let p1 := set_isTranslatingRef true p in
        set_fetches
          (fetches p1 ++
             [{| f_lang := selectedLanguage p1; f_phrase := phrase; f_pending := true |}])
          p1
  end.

(** The playback effect, deps [[translatedArray]]. *)
Definition speak_effect (p : Pipeline) : Pipeline :=
  match translatedArray p with
  | [] => p
  | phrase :: _ =>
      if isSpeakingRef p then p
      else
        let p1 := set_currentTranslation phrase p in
        let p2 := set_isSpeakingRef true p1 in
        set_utterances
          (utterances p2 ++ [{| u_text := phrase; u_timer := true; u_live := true |}])
          p2
  end.

Definition settle_fetch (i : nat) (p : Pipeline) : Pipeline :=
  set_fetches
    (alter (fun f => {| f_lang := f_lang f; f_phrase := f_phrase f; f_pending := false |})
       i (fetches p)) p.

(** The continuation of [translateNextPhrase] after its [await]s: the rest of
    the [try] block or the [catch] block, then [finally]. *)
Definition translate_settled (v : Variant) (r : Response) (p : Pipeline) : Pipeline :=
  let p1 :=
    match try_translate v r with
    | Some translation =>
        let q1 := set_phraseArray (slice_from 1 (phraseArray p)) p in
        let q2 := set_translatedArray (translatedArray q1 ++ [translation]) q1 in
        set_recentTranslations (slice_last 3 (recentTranslations q2 ++ [translation])) q2
    | None =>
        set_phraseArray (slice_from 1 (phraseArray p)) p
    end in
  set_isTranslatingRef false p1.

(** The effects of the render that follows [translate_settled]:
    [phraseArray] was set on both paths, [translatedArray] on success only. *)
Definition translate_rerender (v : Variant) (r : Response) (p : Pipeline) : Pipeline :=
  let p1 := translate_effect p in
  match try_translate v r with
  | Some _ => speak_effect p1
  | None => p1
  end.

Definition clear_timer (i : nat) (p : Pipeline) : Pipeline :=
  set_utterances
    (alter (fun u => {| u_text := u_text u; u_timer := false; u_live := u_live u |})
       i (utterances p)) p.

Definition signal_done (i : nat) (p : Pipeline) : Pipeline :=
  set_utterances
    (alter (fun u => {| u_text := u_text u; u_timer := u_timer u; u_live := false |})
       i (utterances p)) p.

(** The [safetyTimeout] callback of playback [i]. *)
Definition on_safety_timeout (i : nat) (p : Pipeline) : Pipeline :=
  let p1 := clear_timer i p in                 (* the timer has fired *)
  let p2 := set_isSpeakingRef false p1 in
  set_translatedArray (slice_from 1 (translatedArray p2)) p2.

(** [utterance.onend] and [utterance.onerror] of playback [i] (same body). *)
Definition on_utterance_signal (i : nat) (p : Pipeline) : Pipeline :=
  let p0 := signal_done i p in
  let p1 := clear_timer i p0 in                (* clearTimeout(safetyTimeout) *)
  let p2 := set_isSpeakingRef false p1 in
  set_translatedArray (slice_from 1 (translatedArray p2)) p2.

(** Events the browser delivers to the two stages. *)
Inductive PipeEvent :=
| FetchSettled (i : nat) (r : Response)
| SafetyTimeout (i : nat)
| UtteranceEnd (i : nat)
| UtteranceError (i : nat).

(** One event and the render that follows it.  [None]: the browser cannot
    deliver the event (the fetch has already settled, the timer was cleared
    or has fired, the engine has already signalled for this utterance). *)
Definition pipe_step (v : Variant) (e : PipeEvent) (p : Pipeline) : option Pipeline :=
  match e with
  | FetchSettled i r =>
      match fetches p !! i with
      | Some f =>
          if f_pending f
          then Some (translate_rerender v r (translate_settled v r (settle_fetch i p)))
          else None
      | None => None
      end
  | SafetyTimeout i =>
      match utterances p !! i with
      | Some u =>
          if u_timer u then Some (speak_effect (on_safety_timeout i p)) else None
      | None => None
      end
  | UtteranceEnd i | UtteranceError i =>
      match utterances p !! i with
      | Some u =>
          if u_live u then Some (speak_effect (on_utterance_signal i p)) else None
      | None => None
      end
  end.

(** [setPhraseArray(prev => [...prev, phrase])] and the render after it. *)
Definition enqueue_phrase (phrase : string) (p : Pipeline) : Pipeline :=
  translate_effect (set_phraseArray (phraseArray p ++ [phrase]) p).

(** Calls the stages are still waiting for. *)
Definition pending_fetches (p : Pipeline) : nat :=
  length (List.filter f_pending (fetches p)).

Definition awaited_utterances (p : Pipeline) : nat :=
  length (List.filter u_timer (utterances p)).

(** Utterances the speech engine has been given and has not finished. *)
Definition live_utterances (p : Pipeline) : nat :=
  length (List.filter u_live (utterances p)).

(** ** The default view: Web Speech recogniser, word grouping, start/stop *)

Module Default.

Definition WORDS_PER_PHRASE : nat := 10.

Record App := {
  pipe : Pipeline;
  isListening : bool;
  wordArray : list string;
  lastInterimRef : string;
  processedWordCountRef : nat;
  allProcessedTextRef : string }.

Definition set_pipe (v : Pipeline) (s : App) : App :=
  {| pipe := v; isListening := isListening s; wordArray := wordArray s;
     lastInterimRef := lastInterimRef s;
     processedWordCountRef := processedWordCountRef s;
     allProcessedTextRef := allProcessedTextRef s |}.

Definition set_isListening (v : bool) (s : App) : App :=
  {| pipe := pipe s; isListening := v; wordArray := wordArray s;
     lastInterimRef := lastInterimRef s;
     processedWordCountRef := processedWordCountRef s;
     allProcessedTextRef := allProcessedTextRef s |}.

Definition set_wordArray (v : list string) (s : App) : App :=
  {| pipe := pipe s; isListening := isListening s; wordArray := v;
     lastInterimRef := lastInterimRef s;
     processedWordCountRef := processedWordCountRef s;
     allProcessedTextRef := allProcessedTextRef s |}.

Definition set_lastInterimRef (v : string) (s : App) : App :=
  {| pipe := pipe s; isListening := isListening s; wordArray := wordArray s;
     lastInterimRef := v;
     processedWordCountRef := processedWordCountRef s;
     allProcessedTextRef := allProcessedTextRef s |}.

Definition set_processedWordCountRef (v : nat) (s : App) : App :=
  {| pipe := pipe s; isListening := isListening s; wordArray := wordArray s;
     lastInterimRef := lastInterimRef s;
     processedWordCountRef := v;
     allProcessedTextRef := allProcessedTextRef s |}.

Definition set_allProcessedTextRef (v : string) (s : App) : App :=
  {| pipe := pipe s; isListening := isListening s; wordArray := wordArray s;
     lastInterimRef := lastInterimRef s;
     processedWordCountRef := processedWordCountRef s;
     allProcessedTextRef := v |}.

Definition initial : App :=
  {| pipe := initial_pipeline; isListening := false; wordArray := [];
     lastInterimRef := EmptyString; processedWordCountRef := 0;
     allProcessedTextRef := EmptyString |}.

(** A recognition result: [results[i][0].transcript] and
    [results[i].isFinal]. *)
Definition Result : Type := string * bool.

(** The loop "Collect all results" over [results[resultIndex ..]]. *)
Fixpoint collect (results : list Result) (interimTranscript finalTranscript : string)
  : string * string :=
  match results with
  | [] => (interimTranscript, finalTranscript)
  | (transcript, isFinal) :: rest =>
      if isFinal
      then collect rest interimTranscript (finalTranscript +:+ transcript +:+ " ")
      else collect rest (interimTranscript +:+ transcript) finalTranscript
  end.

(** The prefix check of the FINAL branch. *)
Definition textToAdd_of (s : App) (transcript : string) : string :=
  if truthy (lastInterimRef s) && startsWith transcript (lastInterimRef s) then
    trim (substring (String.length (lastInterimRef s)) transcript)
  else if truthy (allProcessedTextRef s) && startsWith transcript (allProcessedTextRef s) then
    trim (substring (String.length (allProcessedTextRef s)) transcript)
  else transcript.

(** The FINAL branch of [recognition.onresult]. *)
Definition on_final (transcript : string) (s : App) : App :=
  let textToAdd := textToAdd_of s transcript in
  let s1 :=
    if truthy textToAdd then
      let words := words textToAdd in
      let s' := set_wordArray (wordArray s ++ words) s in
      set_allProcessedTextRef (trim (allProcessedTextRef s' +:+ " " +:+ textToAdd)) s'
    else s in
  set_processedWordCountRef 0 (set_lastInterimRef EmptyString s1).

(** The INTERIM branch of [recognition.onresult]. *)
Definition on_interim (currentInterim : string) (s : App) : App :=
  let words := words currentInterim in
  let unprocessedWordCount :=
    (Z.of_nat (length words) - Z.of_nat (processedWordCountRef s))%Z in
  if (Z.of_nat WORDS_PER_PHRASE <=? unprocessedWordCount)%Z then
    let phraseWords :=
      slice (processedWordCountRef s) (processedWordCountRef s + WORDS_PER_PHRASE) words in
    let phrase := join phraseWords in
    let s1 := set_pipe (set_phraseArray (phraseArray (pipe s) ++ [phrase]) (pipe s)) s in
    let s2 := set_allProcessedTextRef (trim (allProcessedTextRef s1 +:+ " " +:+ phrase)) s1 in
    let s3 := set_processedWordCountRef (processedWordCountRef s2 + WORDS_PER_PHRASE) s2 in
    set_lastInterimRef currentInterim s3
  else s.

(** [recognition.onresult], the handler alone. *)
Definition onresult_handler (results : list Result) (s : App) : App :=
  let '(interimTranscript, finalTranscript) := collect results EmptyString EmptyString in
  if truthy (trim finalTranscript) then on_final (trim finalTranscript) s
  else if truthy (trim interimTranscript) then on_interim (trim interimTranscript) s
  else s.

(** PROCESS 2, one run of the effect with its guard true. *)
Definition process2 (s : App) : App :=
  let wordsToProcess := slice 0 WORDS_PER_PHRASE (wordArray s) in
  let phrase := join wordsToProcess in
  let s1 := set_wordArray (slice_from WORDS_PER_PHRASE (wordArray s)) s in
  set_pipe (set_phraseArray (phraseArray (pipe s1) ++ [phrase]) (pipe s1)) s1.

(** The renders that follow a change of [wordArray]: PROCESS 2 runs; when
    its guard holds it sets [wordArray] and [phraseArray], so the next
    render runs PROCESS 2 again and PROCESS 3.  (PROCESS 3 only reads the
    head of [phraseArray], which appending does not change, so running it
    right after each PROCESS 2 gives the state React reaches.) *)
Fixpoint renders_after_wordArray (fuel : nat) (s : App) : App :=
  match fuel with
  | O => s
  | S fuel' =>
      if WORDS_PER_PHRASE <=? length (wordArray s) then
        let s1 := process2 s in
        renders_after_wordArray fuel' (set_pipe (translate_effect (pipe s1)) s1)
      else s
  end.

Definition settle_words (s : App) : App :=
  renders_after_wordArray (length (wordArray s)) s.

(** [recognition.onresult] and the renders it causes: the FINAL branch
    sets [wordArray] (when [textToAdd] is non-empty), the INTERIM branch
    sets [phraseArray] (when it emits). *)
Definition onresult (results : list Result) (s : App) : App :=
  let '(interimTranscript, finalTranscript) := collect results EmptyString EmptyString in
  if truthy (trim finalTranscript) then
    settle_words (on_final (trim finalTranscript) s)
  else if truthy (trim interimTranscript) then
    let s1 := on_interim (trim interimTranscript) s in
    set_pipe (translate_effect (pipe s1)) s1
  else s.

(** The start branch of [handleStartStop]: "Clear all arrays and refs". *)
Definition start (s : App) : App :=
  let p := pipe s in
  let p1 := set_phraseArray [] p in
  let p2 := set_translatedArray [] p1 in
  let p3 := set_currentTranslation (VJson (JStr EmptyString)) p2 in
  let p4 := set_recentTranslations [] p3 in
  let p5 := set_isSpeakingRef false (set_isTranslatingRef false p4) in
  {| pipe := p5; isListening := true; wordArray := [];
     lastInterimRef := EmptyString; processedWordCountRef := 0;
     allProcessedTextRef := EmptyString |}.

(** The stop branch of [handleStartStop]. *)
Definition stop (s : App) : App := set_isListening false s.

Definition handleStartStop (s : App) : App :=
  if isListening s then stop s else start s.

Inductive Event :=
| Recognition (results : list Result)
| StartStop
| SelectLanguage (code : string)
| Pipe (e : PipeEvent).

(** One event of the view.  The language selector is disabled while
    listening; changing the language re-runs PROCESS 3. *)
Definition step (e : Event) (s : App) : option App :=
  match e with
  | Recognition results => Some (onresult results s)
  | StartStop => Some (handleStartStop s)
  | SelectLanguage code =>
      if isListening s then None
      else Some (set_pipe (translate_effect (set_selectedLanguage code (pipe s))) s)
  | Pipe pe =>
      match pipe_step DefaultView pe (pipe s) with
      | Some p => Some (set_pipe p s)
      | None => None
      end
  end.

Fixpoint run (es : list Event) (s : App) : option App :=
  match es with
  | [] => Some s
  | e :: rest =>
      match step e s with
      | Some s' => run rest s'
      | None => None
      end
  end.

End Default.

(** ** The iPhone view: ElevenLabs Scribe hook, token hook, password, start/stop *)

Module Iphone.

Definition WORDS_PER_PHRASE : nat := 10.
Definition PASSWORD_STORAGE_KEY : string := "elevenlabs_password".

(** Errors thrown inside [getToken]. *)
Inductive TokenError :=
| PasswordRequired                 (* 'Password is required' *)
| FetchRejected                    (* the fetch itself rejects *)
| NotOk (statusText : string)      (* 'Failed to get ElevenLabs token: ...' *)
| BodyRejected                     (* response.json() rejects *)
| TokenOfNull                      (* TypeError reading [token] of null *)
| TokenNotFound.                   (* 'Token not found in response' *)

Inductive StartError :=
| PasswordNotAvailable             (* 'Password not available' *)
| TokenFailed (e : TokenError)
| ConnectFailed.                   (* scribe.connect rejects *)

Inductive AuthError :=
| PleaseEnterPassword              (* 'Please enter a password' *)
| AuthFailed (e : TokenError).

(** What the backend answers to [/api/eleven/auth]. *)
Inductive TokenResponse :=
| TokenFetchRejected
| TokenHttp (ok : bool) (statusText : string) (body : option json).

(** What the view hands to the outside world, in order. *)
Inductive Request :=
| TokenFetch (password : string)
| ScribeConnect (token : json)
| ScribeDisconnect
| PrimeUtterance
| Alert (e : StartError).

Record App := {
  pipe : Pipeline;
  (* useElevenLabsScribe *)
  processedWordCountRef : nat;
  isConnected : bool;
  (* useElevenLabs *)
  token : option json;
  isLoading : bool;
  error : option TokenError;
  (* password management *)
  password : string;
  passwordInput : string;
  isAuthenticating : bool;
  authError : option AuthError;
  (* browser side *)
  localStorage : gmap string string;
  requests : list Request }.

Definition set_pipe (v : Pipeline) (s : App) : App :=
  {| pipe := v; processedWordCountRef := processedWordCountRef s;
     isConnected := isConnected s; token := token s; isLoading := isLoading s;
     error := error s; password := password s; passwordInput := passwordInput s;
     isAuthenticating := isAuthenticating s; authError := authError s;
     localStorage := localStorage s; requests := requests s |}.

Definition set_processedWordCountRef (v : nat) (s : App) : App :=
  {| pipe := pipe s; processedWordCountRef := v;
     isConnected := isConnected s; token := token s; isLoading := isLoading s;
     error := error s; password := password s; passwordInput := passwordInput s;
     isAuthenticating := isAuthenticating s; authError := authError s;
     localStorage := localStorage s; requests := requests s |}.

Definition set_isConnected (v : bool) (s : App) : App :=
  {| pipe := pipe s; processedWordCountRef := processedWordCountRef s;
     isConnected := v; token := token s; isLoading := isLoading s;
     error := error s; password := password s; passwordInput := passwordInput s;
     isAuthenticating := isAuthenticating s; authError := authError s;
     localStorage := localStorage s; requests := requests s |}.

Definition set_token (v : option json) (s : App) : App :=
  {| pipe := pipe s; processedWordCountRef := processedWordCountRef s;
     isConnected := isConnected s; token := v; isLoading := isLoading s;
     error := error s; password := password s; passwordInput := passwordInput s;
     isAuthenticating := isAuthenticating s; authError := authError s;
     localStorage := localStorage s; requests := requests s |}.

Definition set_isLoading (v : bool) (s : App) : App :=
  {| pipe := pipe s; processedWordCountRef := processedWordCountRef s;
     isConnected := isConnected s; token := token s; isLoading := v;
     error := error s; password := password s; passwordInput := passwordInput s;
     isAuthenticating := isAuthenticating s; authError := authError s;
     localStorage := localStorage s; requests := requests s |}.

Definition set_error (v : option TokenError) (s : App) : App :=
  {| pipe := pipe s; processedWordCountRef := processedWordCountRef s;
     isConnected := isConnected s; token := token s; isLoading := isLoading s;
     error := v; password := password s; passwordInput := passwordInput s;
     isAuthenticating := isAuthenticating s; authError := authError s;
     localStorage := localStorage s; requests := requests s |}.

Definition set_password (v : string) (s : App) : App :=
  {| pipe := pipe s; processedWordCountRef := processedWordCountRef s;
     isConnected := isConnected s; token := token s; isLoading := isLoading s;
     error := error s; password := v; passwordInput := passwordInput s;
     isAuthenticating := isAuthenticating s; authError := authError s;
     localStorage := localStorage s; requests := requests s |}.

Definition set_passwordInput (v : string) (s : App) : App :=
  {| pipe := pipe s; processedWordCountRef := processedWordCountRef s;
     isConnected := isConnected s; token := token s; isLoading := isLoading s;
     error := error s; password := password s; passwordInput := v;
     isAuthenticating := isAuthenticating s; authError := authError s;
     localStorage := localStorage s; requests := requests s |}.

Definition set_isAuthenticating (v : bool) (s : App) : App :=
  {| pipe := pipe s; processedWordCountRef := processedWordCountRef s;
     isConnected := isConnected s; token := token s; isLoading := isLoading s;
     error := error s; password := password s; passwordInput := passwordInput s;
     isAuthenticating := v; authError := authError s;
     localStorage := localStorage s; requests := requests s |}.

Definition set_authError (v : option AuthError) (s : App) : App :=
  {| pipe := pipe s; processedWordCountRef := processedWordCountRef s;
     isConnected := isConnected s; token := token s; isLoading := isLoading s;
     error := error s; password := password s; passwordInput := passwordInput s;
     isAuthenticating := isAuthenticating s; authError := v;
     localStorage := localStorage s; requests := requests s |}.

Definition set_localStorage (v : gmap string string) (s : App) : App :=
  {| pipe := pipe s; processedWordCountRef := processedWordCountRef s;
     isConnected := isConnected s; token := token s; isLoading := isLoading s;
     error := error s; password := password s; passwordInput := passwordInput s;
     isAuthenticating := isAuthenticating s; authError := authError s;
     localStorage := v; requests := requests s |}.

Definition send (r : Request) (s : App) : App :=
  {| pipe := pipe s; processedWordCountRef := processedWordCountRef s;
     isConnected := isConnected s; token := token s; isLoading := isLoading s;
     error := error s; password := password s; passwordInput := passwordInput s;
     isAuthenticating := isAuthenticating s; authError := authError s;
     localStorage := localStorage s; requests := requests s ++ [r] |}.

(** The component as mounted over a given [localStorage]: the [password]
    initialiser is [localStorage.getItem(PASSWORD_STORAGE_KEY) || '']. *)
Definition mount (storage : gmap string string) : App :=
  {| pipe := initial_pipeline; processedWordCountRef := 0; isConnected := false;
     token := None; isLoading := false; error := None;
     password := default EmptyString (storage !! PASSWORD_STORAGE_KEY);
     passwordInput := EmptyString; isAuthenticating := false; authError := None;
     localStorage := storage; requests := [] |}.

(** *** useElevenLabsScribe *)

(** [onPhrase], i.e. [handlePhrase] of the view. *)
Definition onPhrase (phrase : string) (s : App) : App :=
  set_pipe (enqueue_phrase phrase (pipe s)) s.

Definition onPartialTranscript (text : string) (s : App) : App :=
  if truthy text && truthy (trim text) then
    let currentPartial := trim text in
    let words := words currentPartial in
    let unprocessedWordCount :=
      (Z.of_nat (length words) - Z.of_nat (processedWordCountRef s))%Z in
    if (Z.of_nat WORDS_PER_PHRASE <=? unprocessedWordCount)%Z then
      let phraseWords :=
        slice (processedWordCountRef s) (processedWordCountRef s + WORDS_PER_PHRASE) words in
      let phrase := join phraseWords in
      let s1 := onPhrase phrase s in
      set_processedWordCountRef (processedWordCountRef s1 + WORDS_PER_PHRASE) s1
    else s
  else s.

Definition onCommittedTranscript (text : string) (s : App) : App :=
  if truthy text && truthy (trim text) then
    let words := words (trim text) in
    let s1 :=
      if processedWordCountRef s <? length words then
        let remainingWords := slice_from (processedWordCountRef s) words in
        let remainingPhrase := join remainingWords in
        if truthy remainingPhrase then onPhrase remainingPhrase s else s
      else s in
    set_processedWordCountRef 0 s1
  else s.

(** [disconnect] of the hook: [scribe.disconnect()], then the counter reset. *)
Definition disconnect (s : App) : App :=
  set_processedWordCountRef 0 (set_isConnected false (send ScribeDisconnect s)).

(** *** useElevenLabs *)

(** [data.token]; [None] is the TypeError on [null]. *)
Definition token_field (data : json) : option value :=
  match data with
  | JNull => None
  | JObj l => Some (match obj_get "token" l with Some j => VJson j | None => VUndefined end)
  | _ => Some VUndefined
  end.

(** JS truthiness of a payload value. *)
Definition js_truthy (j : json) : bool :=
  match j with
  | JNull => false
  | JBool b => b
  | JNum n => negb (n =? 0)%Z
  | JStr s => truthy s
  | JArr _ | JObj _ => true
  end.

(** The [try] block of [getToken] after the fetch settles. *)
Definition token_of_response (r : TokenResponse) : TokenError + json :=
  match r with
  | TokenFetchRejected => inl FetchRejected
  | TokenHttp false statusText _ => inl (NotOk statusText)
  | TokenHttp true _ None => inl BodyRejected
  | TokenHttp true _ (Some data) =>
      match token_field data with
      | None => inl TokenOfNull
      | Some VUndefined => inl TokenNotFound
      | Some (VJson newToken) =>
          if js_truthy newToken then inr newToken else inl TokenNotFound
      end
  end.

(** [getToken(password)]: the state after the call and what it resolves
    ([inr]) or rejects ([inl]) with. *)
Definition getToken (pw : string) (r : TokenResponse) (s : App)
  : App * (TokenError + json) :=
  if negb (truthy pw) then (s, inl PasswordRequired)
  else
    let s1 := set_error None (set_isLoading true s) in
    let s2 := send (TokenFetch pw) s1 in
    match token_of_response r with
    | inr newToken =>
        (* "Store token in state but NOT in localStorage (single-use only)" *)
        (set_isLoading false (set_token (Some newToken) s2), inr newToken)
    | inl e =>
        (set_isLoading false (set_error (Some e) s2), inl e)
    end.

Definition clearToken (s : App) : App := set_error None (set_token None s).

(** The effect "Fetch token when password is set and token is not
    available". *)
Definition token_effect (r : TokenResponse) (s : App) : App :=
  if truthy (password s) && negb (bool_decide (is_Some (token s))) && negb (isLoading s)
  then fst (getToken (password s) r s)
  else s.

(** *** The view *)

Definition handlePasswordSubmit (r : TokenResponse) (s : App) : App :=
  if negb (truthy (trim (passwordInput s))) then
    set_authError (Some PleaseEnterPassword) s
  else
    let s1 := set_authError None (set_isAuthenticating true s) in
    let '(s2, res) := getToken (passwordInput s1) r s1 in
    let s3 :=
      match res with
      | inr _ =>
          let s' := set_localStorage
                      (<[PASSWORD_STORAGE_KEY := passwordInput s2]> (localStorage s2)) s2 in
          set_passwordInput EmptyString (set_password (passwordInput s') s')
      | inl e => set_authError (Some (AuthFailed e)) s2
      end in
    set_isAuthenticating false s3.

Definition handleLogout (s : App) : App :=
  let s1 := set_localStorage (delete PASSWORD_STORAGE_KEY (localStorage s)) s in
  let s2 := clearToken s1 in
  set_authError None (set_passwordInput EmptyString (set_password EmptyString s2)).

(** The stop branch of [handleStartStop]. *)
Definition stop (s : App) : App :=
  let s1 := disconnect s in
  (* "DON'T clear arrays ... But reset the refs to prevent any stuck states" *)
  set_pipe (set_isSpeakingRef false (set_isTranslatingRef false (pipe s1))) s1.

(** The start branch of [handleStartStop]; [r] is what the token fetch
    settles with and [connects] whether [scribe.connect] resolves. *)
Definition start (r : TokenResponse) (connects : bool) (s : App) : App :=
  if negb (truthy (password s)) then send (Alert PasswordNotAvailable) s
  else
    let p := pipe s in
    let p1 := set_phraseArray [] p in
    let p2 := set_translatedArray [] p1 in
    let p3 := set_currentTranslation (VJson (JStr EmptyString)) p2 in
    let p4 := set_isSpeakingRef false (set_isTranslatingRef false p3) in
    let s1 := send PrimeUtterance (set_pipe p4 s) in
    let '(s2, res) := getToken (password s1) r s1 in
    match res with
    | inl e => send (Alert (TokenFailed e)) s2
    | inr freshToken =>
        let s3 := send (ScribeConnect freshToken) s2 in
        if connects then set_isConnected true s3
        else send (Alert ConnectFailed) s3
    end.

Definition handleStartStop (r : TokenResponse) (connects : bool) (s : App) : App :=
  if isConnected s then stop s else start r connects s.

Inductive Event :=
| PartialTranscript (text : string)
| CommittedTranscript (text : string)
| StartStop (r : TokenResponse) (connects : bool)
| TypePassword (text : string)
| PasswordSubmit (r : TokenResponse)
| Logout
| TokenEffect (r : TokenResponse)
| SelectLanguage (code : string)
| Reload
| Pipe (e : PipeEvent).

(** One event of the view, gated by what is rendered: the password form
    while [password] is empty, the main view otherwise; the Start/Stop
    button is disabled without a token, the language selector while
    connected. *)
Definition step (e : Event) (s : App) : option App :=
  match e with
  | PartialTranscript text =>
      if isConnected s then Some (onPartialTranscript text s) else None
  | CommittedTranscript text =>
      if isConnected s then Some (onCommittedTranscript text s) else None
  | StartStop r connects =>
      if truthy (password s) && bool_decide (is_Some (token s))
      then Some (handleStartStop r connects s) else None
  | TypePassword text =>
      if truthy (password s) then None else Some (set_passwordInput text s)
  | PasswordSubmit r =>
      if truthy (password s) then None else Some (handlePasswordSubmit r s)
  | Logout =>
      if truthy (password s) then Some (handleLogout s) else None
  | TokenEffect r => Some (token_effect r s)
  | SelectLanguage code =>
      if truthy (password s) && negb (isConnected s)
      then Some (set_pipe (translate_effect (set_selectedLanguage code (pipe s))) s)
      else None
  | Reload => Some (mount (localStorage s))
  | Pipe pe =>
      match pipe_step IphoneView pe (pipe s) with
      | Some p => Some (set_pipe p s)
      | None => None
      end
  end.

Fixpoint run (es : list Event) (s : App) : option App :=
  match es with
  | [] => Some s
  | e :: rest =>
      match step e s with
      | Some s' => run rest s'
      | None => None
      end
  end.

End Iphone.

(** ** PROCESS 1 of the default view: the recogniser and its restarts *)

Module Recognition.

(** [c.toUpperCase()] on the ASCII range (the language codes offered and the
    patterns matched below are ASCII). *)
Definition upper_ascii (c : ascii) : ascii :=
  let n := nat_of_ascii c in
  if (97 <=? n) && (n <=? 122) then ascii_of_nat (n - 32) else c.

Fixpoint toUpperCase (s : string) : string :=
  match s with
  | EmptyString => EmptyString
  | String c r => String (upper_ascii c) (toUpperCase r)
  end.

(** The value given to [recognition.lang]. *)
Definition recognition_lang (selectedLanguage : string) : string :=
  if String.eqb selectedLanguage "lv" then "lv-LV"
  else selectedLanguage +:+ "-" +:+ toUpperCase selectedLanguage.

(** A [SpeechRecognition] object made by the effect.  [captured] is the
    value of [isListening] in the render whose effect made it: this is what
    its [onend] handler tests. *)
Record Recogniser := {
  continuous : bool;
  interimResults : bool;
  lang : string;
  captured : bool;
  running : bool }.

Definition set_running (v : bool) (r : Recogniser) : Recogniser :=
  {| continuous := continuous r; interimResults := interimResults r;
     lang := lang r; captured := captured r; running := v |}.

(** [recognitionRef] and the recognisers the browser holds. *)
Record RecState := {
  recognitionRef : option nat;
  recognisers : list Recogniser }.


(** The body of the effect, deps [[isListening, selectedLanguage]];
    [supported] says whether the browser has the recognition API. *)
Definition process1 (isListening supported : bool) (selectedLanguage : string)
    (st : RecState) : RecState :=
  if negb isListening then st
  else if supported then
    let recognition :=
      {| continuous := true; interimResults := true;
         lang := recognition_lang selectedLanguage;
         captured := isListening;
         running := true |} in                       (* recognition.start() *)
    {| recognitionRef := Some (length (recognisers st));
       recognisers := recognisers st ++ [recognition] |}
  else st.

(** The cleanup the effect returns when it ran with [isListening] true. *)
Definition cleanup (st : RecState) : RecState :=
  match recognitionRef st with
  | Some i =>
      {| recognitionRef := None;
         recognisers := alter (set_running false) i (recognisers st) |}
  | None => st
  end.

(** [recognition.onend] of recogniser [i]: the engine has stopped. *)
Definition onend (i : nat) (st : RecState) : RecState :=
  {| recognitionRef := recognitionRef st;
     recognisers :=
       alter (fun r => if captured r then set_running true r else set_running false r)
         i (recognisers st) |}.

(** [recognition.onerror]: every branch returns without doing anything. *)
Definition onerror (error : string) (st : RecState) : RecState := st.

(** What React does to the recogniser when [isListening] goes from [was] to
    [now] (or the language changes): the cleanup of the previous run, if that
    run got past its guard, then the effect. *)
Definition rerender (was now supported : bool) (selectedLanguage : string)
    (st : RecState) : RecState :=
  process1 now supported selectedLanguage (if was then cleanup st else st).

(** [handleStartStop] of the default view together with PROCESS 1. *)
Definition handleStartStop (supported : bool) (s : Default.App) (st : RecState)
  : Default.App * RecState :=
  let s' := Default.handleStartStop s in
  (s', rerender (Default.isListening s) (Default.isListening s') supported
         (selectedLanguage (Default.pipe s')) st).

End Recognition.

(** ** [App.tsx]: which view is rendered *)

Module AppView.

(** A character of the text matches a pattern letter under the [i] flag. *)
Definition ci_eqb (a b : ascii) : bool :=
  Ascii.eqb (Recognition.upper_ascii a) (Recognition.upper_ascii b).

Fixpoint ci_prefix (pat s : string) : bool :=
  match pat, s with
  | EmptyString, _ => true
  | String _ _, EmptyString => false
  | String a pat', String b s' => ci_eqb a b && ci_prefix pat' s'
  end.

(** [/pat/i.test(s)] for a pattern of plain letters. *)
Fixpoint ci_test (pat s : string) : bool :=
  ci_prefix pat s ||
  match s with
  | EmptyString => false
  | String _ s' => ci_test pat s'
  end.

(** [/iPhone|iPad|iPod/i.test(navigator.userAgent)] *)
Definition isIOS (userAgent : string) : bool :=
  ci_test "iPhone" userAgent || ci_test "iPad" userAgent || ci_test "iPod" userAgent.

(** [import.meta.env.VITE_FORCE_IPHONE_VIEW === 'true']; [None] is an unset
    variable. *)
Definition FORCE_IPHONE_VIEW (env : option string) : bool :=
  match env with
  | Some v => String.eqb v "true"
  | None => false
  end.

Definition App (userAgent : string) (env : option string) : Variant :=
  if isIOS userAgent || FORCE_IPHONE_VIEW env then IphoneView else DefaultView.

End AppView.

(** * Vocabulary of the statements *)

(** The word array only ever holds words. *)
Definition words_only (s : Default.App) : Prop :=
  Forall (fun w => is_word w = true) (Default.wordArray s).

Definition full_phrases (added : list string) : Prop :=
  Forall (fun p => word_count p = Default.WORDS_PER_PHRASE) added.

(** [added] is what a handler appended to the phrase queue. *)
Definition adds_phrases (before after : Pipeline) (added : list string) : Prop :=
  phraseArray after = phraseArray before ++ added.


(** The words that reached a phrase, and those still waiting in the word
    array. *)
Definition phrase_words (p : Pipeline) : list string :=
  flat_map words (phraseArray p).

Definition accounted_words (s : Default.App) : list string :=
  phrase_words (Default.pipe s) ++ Default.wordArray s.

(** Stop flushes the pending words as one short phrase and clears the
    segmenter state. *)
Definition flushed_and_cleared (before after : Default.App) : Prop :=
  adds_phrases (Default.pipe before) (Default.pipe after) [join (Default.wordArray before)]
  /\ Default.wordArray after = []
  /\ Default.lastInterimRef after = EmptyString
  /\ Default.processedWordCountRef after = 0
  /\ Default.allProcessedTextRef after = EmptyString.

(** *** Sample inputs *)

Definition three_words : string := "a b c".
Definition twelve_words : string := "a b c d e f g h i j k l".
Definition twenty_words : string :=
  "a1 a2 a3 a4 a5 a6 a7 a8 a9 a10 b1 b2 b3 b4 b5 b6 b7 b8 b9 b10".

(** The default view right after Start. *)
Definition default_started : Default.App := Default.start Default.initial.

(** The default view listening, with three words waiting in the word array. *)
Definition default_three_pending : Default.App :=
  Default.onresult [(three_words, true)] default_started.

Definition token_ok (t : string) : Iphone.TokenResponse :=
  Iphone.TokenHttp true "OK" (Some (JObj [("token", JStr t)])).

(** The iPhone view mounted over a stored password, then started. *)
Definition iphone_mounted : Iphone.App :=
  Iphone.token_effect (token_ok "t0")
    (Iphone.mount {[ Iphone.PASSWORD_STORAGE_KEY := "secret" ]}).

Definition iphone_connected : Iphone.App :=
  Iphone.handleStartStop (token_ok "t1") true iphone_mounted.

(** *** Calls in flight *)

(** The lock of a stage is set exactly when the stage awaits one call, and
    no call is awaited otherwise. *)
Definition translate_single_flight (p : Pipeline) : Prop :=
  pending_fetches p = if isTranslatingRef p then 1 else 0.

Definition speak_single_flight (p : Pipeline) : Prop :=
  awaited_utterances p = if isSpeakingRef p then 1 else 0.

Definition single_flight (p : Pipeline) : Prop :=
  translate_single_flight p /\ speak_single_flight p.







(** *** Sample runs of the stages *)

Definition google_ok (t : string) : Response :=
  Http true (Some (JArr [JArr [JArr [JStr t]]])).

Definition thirty_words : string :=
  "a1 a2 a3 a4 a5 a6 a7 a8 a9 a10 b1 b2 b3 b4 b5 b6 b7 b8 b9 b10 c1 c2 c3 c4 c5 c6 c7 c8 c9 c10".

(** Three partials give three phrases; the three translations arrive while
    the first is still being spoken. *)
Definition three_translations : list Default.Event :=
  [Default.Recognition [(thirty_words, false)];
   Default.Recognition [(thirty_words, false)];
   Default.Recognition [(thirty_words, false)];
   Default.Pipe (FetchSettled 0 (google_ok "T1"));
   Default.Pipe (FetchSettled 1 (google_ok "T2"));
   Default.Pipe (FetchSettled 2 (google_ok "T3"))].


Definition utterance_texts (p : Pipeline) : list value :=
  List.map u_text (utterances p).


(** *** Translation failures *)

(** The ways the [try] block of [translateNextPhrase] ends in [catch]. *)
Inductive translation_failure (v : Variant) : Response -> Prop :=
| provider_error : translation_failure v NetworkError
| non_success (body : option json) : translation_failure v (Http false body)
| body_not_json : translation_failure v (Http true None)
| payload_throws (data : json) :
    match v with
    | DefaultView => extract_default data
    | IphoneView => extract_iphone data
    end = None ->
    translation_failure v (Http true (Some data)).

(** *** Lock discipline of the stages and of the session controller *)


(** Two phrases queued in the default view, the first being translated. *)
Definition two_phrases_queued : Pipeline :=
  Default.pipe
    (Default.onresult [(thirty_words, false)]
       (Default.onresult [(thirty_words, false)] default_started)).

(** *** Requests of the iPhone view *)

(** What Start hands to the outside world once the password is there: the
    priming utterance, one token fetch, and then either the connection with
    the token that fetch returned, or an alert. *)
Definition start_requests (pw : string) (r : Iphone.TokenResponse) (connects : bool)
  : list Iphone.Request :=
  Iphone.PrimeUtterance :: Iphone.TokenFetch pw ::
    match Iphone.token_of_response r with
    | inr freshToken =>
        Iphone.ScribeConnect freshToken ::
          (if connects then [] else [Iphone.Alert Iphone.ConnectFailed])
    | inl e => [Iphone.Alert (Iphone.TokenFailed e)]
    end.

Definition is_token_fetch (r : Iphone.Request) : bool :=
  match r with
  | Iphone.TokenFetch _ => true
  | _ => false
  end.

Definition token_fetches (t : Iphone.App) : nat :=
  length (List.filter is_token_fetch (Iphone.requests t)).

(** The password form filled in, nothing stored yet. *)
Definition iphone_password_typed : Iphone.App :=
  Iphone.set_passwordInput "secret" (Iphone.mount ∅).

(** *** Further vocabulary *)

(** A string of white space only (possibly empty). *)
Fixpoint blank (s : string) : bool :=
  match s with
  | EmptyString => true
  | String c r => is_space c && blank r
  end.

(** The final results of a recognition event. *)
Definition finals_only (results : list Default.Result) : list Default.Result :=
  List.filter (fun r => snd r) results.

(** A run of partial transcripts through the Scribe hook. *)
Definition iphone_partials (texts : list string) (t : Iphone.App) : Iphone.App :=
  fold_left (fun t text => Iphone.onPartialTranscript text t) texts t.

(** *** Queues being served *)




(** The translation stage awaits the translation of the head phrase, which
    is the request it sent last. *)
Definition awaiting_head (p : Pipeline) : Prop :=
  exists x rest fs,
    phraseArray p = x :: rest
    /\ isTranslatingRef p = true
    /\ fetches p =
         fs ++ [{| f_lang := selectedLanguage p; f_phrase := x; f_pending := true |}].

(** The pending request settles, then the one sent next, and so on. *)
Fixpoint settle_in_turn (v : Variant) (rs : list Response) (p : Pipeline)
  : option Pipeline :=
  match rs with
  | [] => Some p
  | r :: rest =>
      match pipe_step v (FetchSettled (length (fetches p) - 1) r) p with
      | Some p' => settle_in_turn v rest p'
      | None => None
      end
  end.

(** The playback stage awaits the utterance of the head translation, which
    is the one it started last. *)
Definition speaking_head (p : Pipeline) : Prop :=
  exists x rest us,
    translatedArray p = x :: rest
    /\ isSpeakingRef p = true
    /\ utterances p = us ++ [{| u_text := x; u_timer := true; u_live := true |}].

(** How a playback comes to its end. *)
Inductive Completion := Ended | Errored | TimedOut.

Definition completion_event (c : Completion) (i : nat) : PipeEvent :=
  match c with
  | Ended => UtteranceEnd i
  | Errored => UtteranceError i
  | TimedOut => SafetyTimeout i
  end.

Fixpoint complete_in_turn (v : Variant) (cs : list Completion) (p : Pipeline)
  : option Pipeline :=
  match cs with
  | [] => Some p
  | c :: rest =>
      match pipe_step v (completion_event c (length (utterances p) - 1)) p with
      | Some p' => complete_in_turn v rest p'
      | None => None
      end
  end.

(** Three translations queued in the default view, the first being spoken. *)
Definition three_to_speak : Pipeline :=
  default initial_pipeline
    (Default.pipe <$> Default.run three_translations default_started).

(** What a translation response carries in its first element: a list of
    segments, each beginning with its translated text. *)
Definition google_payload (segs : list (string * list json)) (rest : list json) : json :=
  JArr (JArr (List.map (fun seg => JArr (JStr (fst seg) :: snd seg)) segs) :: rest).

(** The token effect running once per response. *)
Definition token_effects (rs : list Iphone.TokenResponse) (t : Iphone.App) : Iphone.App :=
  fold_left (fun t r => Iphone.token_effect r t) rs t.

Definition token_refused (r : Iphone.TokenResponse) : Prop :=
  exists e, Iphone.token_of_response r = inl e.

Definition is_connect (r : Iphone.Request) : bool :=
  match r with
  | Iphone.ScribeConnect _ => true
  | _ => false
  end.

(** *** Stages at work, counters, recognisers *)

(** A stage holds its lock whenever its queue is not empty. *)
Definition busy (p : Pipeline) : Prop :=
  (phraseArray p ≠ [] -> isTranslatingRef p = true)
  /\ (translatedArray p ≠ [] -> isSpeakingRef p = true).

(** The counter of the default view counts whole phrases of the retained
    partial, and there is a retained partial exactly when it is positive. *)
Definition default_counter_ok (s : Default.App) : Prop :=
  (Default.WORDS_PER_PHRASE | Default.processedWordCountRef s)
  /\ (Default.processedWordCountRef s = 0 <-> Default.lastInterimRef s = EmptyString).

Definition iphone_counter_ok (t : Iphone.App) : Prop :=
  (Iphone.WORDS_PER_PHRASE | Iphone.processedWordCountRef t).

(** Every recogniser was made by the effect of a listening render. *)
Definition made_while_listening (st : Recognition.RecState) : Prop :=
  Forall (fun r => Recognition.captured r = true
                   /\ Recognition.continuous r = true
                   /\ Recognition.interimResults r = true)
    (Recognition.recognisers st).


(** The first piece of a split, and the others. *)
Definition hd_piece (s : string) : string := hd EmptyString (split_ws s).
Definition tl_pieces (s : string) : list string := tl (split_ws s).

(** The words an interim text contributes: the next N beyond the processed
    count when there are that many, none otherwise. *)
Definition interim_words (s : Default.App) (currentInterim : string) : list string :=
  if Default.processedWordCountRef s + Default.WORDS_PER_PHRASE
       <=? length (words currentInterim)
  then slice (Default.processedWordCountRef s)
         (Default.processedWordCountRef s + Default.WORDS_PER_PHRASE) (words currentInterim)
  else [].

(** * Properties *)

#[global] Arguments Default.WORDS_PER_PHRASE : simpl never.
#[global] Arguments Iphone.WORDS_PER_PHRASE : simpl never.

(** Decide a closed decidable proposition by evaluation. *)
Ltac by_computation :=
  match goal with
  | |- ?P => apply (@bool_decide_unpack P _); vm_compute; exact I
  end.

(** ** Words, [split] and [join] *)

Section Words.

Lemma append_cons (c : ascii) (r s : string) :
  String c r +:+ s = String c (r +:+ s).
Proof. reflexivity. Qed.

Lemma append_nil (s : string) : EmptyString +:+ s = s.
Proof. reflexivity. Qed.

Lemma split_ws_not_nil (s : string) : split_ws s ≠ [].
Proof.
  induction s as [|c r IH]; simpl; [done|].
  destruct (is_space c).
  - destruct r as [|c' r']; [done|].
    destruct (starts_with_space (String c' r')); [exact IH | done].
  - destruct (split_ws r); done.
Qed.

Lemma split_ws_no_space (s : string) :
  Forall (fun w => no_space w = true) (split_ws s).
Proof.
  induction s as [|c r IH]; simpl.
  - by repeat constructor.
  - destruct (is_space c) eqn:Hc.
    + destruct r as [|c' r']; [by repeat constructor|].
      destruct (starts_with_space (String c' r')); [exact IH|].
      by constructor.
    + destruct (split_ws r) as [|p ps]; [by repeat (constructor; simpl; rewrite ?Hc)|].
      inversion IH as [|? ? Hp Hps]; subst.
      constructor; [|exact Hps]. simpl. by rewrite Hc, Hp.
Qed.

Lemma words_are_words (s : string) :
  Forall (fun w => is_word w = true) (words s).
Proof.
  unfold words. pose proof (split_ws_no_space s) as H.
  induction H as [|w ws Hw _ IH]; simpl; [constructor|].
  destruct (truthy w) eqn:Ht; [|exact IH].
  constructor; [|exact IH]. unfold is_word. by rewrite Ht, Hw.
Qed.

Lemma split_ws_word_app (w s : string) :
  no_space w = true ->
  split_ws (w +:+ s) =
    match split_ws s with
    | p :: ps => (w +:+ p) :: ps
    | [] => [w]
    end.
Proof.
  induction w as [|c r IH]; intros Hw.
  - rewrite append_nil. destruct (split_ws s) eqn:E; [|done].
    by destruct (split_ws_not_nil s).
  - simpl in Hw. apply andb_prop in Hw as [Hc Hr].
    apply negb_true_iff in Hc.
    rewrite append_cons. simpl. rewrite Hc, (IH Hr).
    destruct (split_ws s) as [|p ps] eqn:E; [by destruct (split_ws_not_nil s)|].
    done.
Qed.

Lemma word_not_starting_with_space (w s : string) :
  is_word w = true -> starts_with_space (w +:+ s) = false.
Proof.
  destruct w as [|c r]; [done|]. unfold is_word. simpl.
  intros H. apply andb_prop in H as [H _]. by apply negb_true_iff in H.
Qed.

Lemma join_cons2 (w w' : string) (ws : list string) :
  join (w :: w' :: ws) = w +:+ " " +:+ join (w' :: ws).
Proof. reflexivity. Qed.

Lemma join_starts_with_word (w : string) (ws : list string) :
  is_word w = true -> starts_with_space (join (w :: ws)) = false.
Proof.
  intros Hw. destruct ws as [|w' ws].
  - simpl. rewrite <- (word_not_starting_with_space w EmptyString Hw).
    f_equal. clear. induction w as [|c r IH]; [done|].
    by rewrite append_cons, <- IH.
  - rewrite join_cons2. by apply word_not_starting_with_space.
Qed.

Lemma append_empty_r (s : string) : s +:+ EmptyString = s.
Proof. induction s as [|c r IH]; [done|]. by rewrite append_cons, IH. Qed.

Lemma split_ws_join (ws : list string) :
  Forall (fun w => is_word w = true) ws -> ws ≠ [] ->
  split_ws (join ws) = ws.
Proof.
  induction 1 as [|w ws Hw Hws IH]; [done|]. intros _.
  assert (Hns : no_space w = true).
  { unfold is_word in Hw. by apply andb_prop in Hw as [_ ?]. }
  destruct ws as [|w' ws'].
  - simpl. rewrite <- (append_empty_r w) at 1.
    rewrite (split_ws_word_app w EmptyString Hns). simpl. by rewrite append_empty_r.
  - rewrite join_cons2, (split_ws_word_app _ _ Hns).
    inversion Hws as [|? ? Hw' _]; subst.
    assert (E : split_ws (" " +:+ join (w' :: ws')) = EmptyString :: w' :: ws').
    { change (" " +:+ join (w' :: ws')) with (String " " (join (w' :: ws'))).
      cbn [split_ws is_space].
      pose proof (join_starts_with_word w' ws' Hw') as Hst.
      specialize (IH ltac:(done)).
      destruct (join (w' :: ws')) as [|c r] eqn:Ej.
      - simpl in IH. injection IH as <- <-. discriminate Hw'.
      - rewrite Hst. by f_equal. }
    rewrite E. by rewrite append_empty_r.
Qed.

Lemma words_join (ws : list string) :
  Forall (fun w => is_word w = true) ws -> words (join ws) = ws.
Proof.
  intros H. destruct ws as [|w ws]; [done|].
  unfold words. rewrite split_ws_join by done.
  induction H as [|x xs Hx _ IH]; [done|].
  simpl. unfold is_word in Hx. apply andb_prop in Hx as [-> _]. by f_equal.
Qed.

Lemma word_count_join (ws : list string) :
  Forall (fun w => is_word w = true) ws -> word_count (join ws) = length ws.
Proof. intros H. unfold word_count. by rewrite words_join. Qed.

Lemma slice_length {A} (i n : nat) (l : list A) :
  i + n <= length l -> length (slice i (i + n) l) = n.
Proof.
  intros H. unfold slice. rewrite length_take, length_drop. lia.
Qed.

Lemma slice_Forall {A} (P : A -> Prop) (i j : nat) (l : list A) :
  Forall P l -> Forall P (slice i j l).
Proof. intros H. unfold slice. by apply Forall_take, Forall_drop. Qed.

Lemma slice_from_Forall {A} (P : A -> Prop) (i : nat) (l : list A) :
  Forall P l -> Forall P (slice_from i l).
Proof. intros H. unfold slice_from. by apply Forall_drop. Qed.

(** A phrase cut out of the words of a text has as many words as were cut. *)
Lemma word_count_slice (text : string) (i n : nat) :
  i + n <= length (words text) ->
  word_count (join (slice i (i + n) (words text))) = n.
Proof.
  intros H. rewrite word_count_join.
  - by apply slice_length.
  - apply slice_Forall, words_are_words.
Qed.

End Words.

(** ** The segmenter *)

Section Segmenter.

Lemma phraseArray_translate_effect (p : Pipeline) :
  phraseArray (translate_effect p) = phraseArray p.
Proof.
  unfold translate_effect. destruct (phraseArray p) eqn:E; [by rewrite E|].
  destruct (isTranslatingRef p); [by rewrite E|]. simpl. by rewrite E.
Qed.

Lemma translatedArray_translate_effect (p : Pipeline) :
  translatedArray (translate_effect p) = translatedArray p.
Proof.
  unfold translate_effect. destruct (phraseArray p); [done|].
  by destruct (isTranslatingRef p).
Qed.

Lemma join_words_truthy (ws : list string) :
  Forall (fun w => is_word w = true) ws -> ws ≠ [] -> truthy (join ws) = true.
Proof.
  intros H Hne. destruct (join ws) eqn:E; [|done].
  pose proof (words_join ws H) as Hw. rewrite E in Hw. by destruct ws.
Qed.

(** *** Default view *)

Lemma default_collect_single (text : string) (isFinal : bool) :
  Default.collect [(text, isFinal)] EmptyString EmptyString =
    if isFinal then (EmptyString, text +:+ " ") else (text, EmptyString).
Proof. by destruct isFinal. Qed.

Lemma default_on_interim_spec (t : string) (s : Default.App) :
  let ws := words t in
  let n := Default.processedWordCountRef s in
  Default.on_interim t s =
    if n + Default.WORDS_PER_PHRASE <=? length ws then
      {| Default.pipe :=
           set_phraseArray
             (phraseArray (Default.pipe s) ++
                [join (slice n (n + Default.WORDS_PER_PHRASE) ws)]) (Default.pipe s);
         Default.isListening := Default.isListening s;
         Default.wordArray := Default.wordArray s;
         Default.lastInterimRef := t;
         Default.processedWordCountRef := n + Default.WORDS_PER_PHRASE;
         Default.allProcessedTextRef :=
           trim (Default.allProcessedTextRef s +:+ " " +:+
                   join (slice n (n + Default.WORDS_PER_PHRASE) ws)) |}
    else s.
Proof.
  intros ws n. unfold Default.on_interim. fold ws. fold n.
  destruct (n + Default.WORDS_PER_PHRASE <=? length ws) eqn:E.
  - apply Nat.leb_le in E.
    destruct (Z.leb_spec (Z.of_nat Default.WORDS_PER_PHRASE)
                (Z.of_nat (length ws) - Z.of_nat n)); [done | lia].
  - apply Nat.leb_gt in E.
    destruct (Z.leb_spec (Z.of_nat Default.WORDS_PER_PHRASE)
                (Z.of_nat (length ws) - Z.of_nat n)); [lia | done].
Qed.

Ltac nothing_added :=
  exists []; rewrite ?app_nil_r; repeat split; auto; by constructor.

Lemma default_renders_after_wordArray (fuel : nat) (s : Default.App) :
  words_only s ->
  exists added,
    phraseArray (Default.pipe (Default.renders_after_wordArray fuel s)) =
      phraseArray (Default.pipe s) ++ added
    /\ full_phrases added
    /\ translatedArray (Default.pipe (Default.renders_after_wordArray fuel s)) =
         translatedArray (Default.pipe s)
    /\ words_only (Default.renders_after_wordArray fuel s).
Proof.
  revert s. induction fuel as [|fuel IH]; intros s Hw;
    cbn [Default.renders_after_wordArray].
  - nothing_added.
  - destruct (Default.WORDS_PER_PHRASE <=? length (Default.wordArray s)) eqn:E.
    2:{ nothing_added. }
    apply Nat.leb_le in E.
    match goal with |- context [Default.renders_after_wordArray fuel ?x] => set (s2 := x) end.
    assert (Hw2 : words_only s2).
    { unfold words_only, s2. cbn -[drop]. by apply Forall_drop. }
    destruct (IH s2 Hw2) as (added & Hp & Hf & Ht & Hw').
    exists (join (slice 0 Default.WORDS_PER_PHRASE (Default.wordArray s)) :: added).
    split; [|split; [|split]]; [| |rewrite Ht|exact Hw'].
    + rewrite Hp. unfold s2. cbn -[drop take translate_effect].
      rewrite phraseArray_translate_effect. cbn -[drop take].
      by rewrite <- app_assoc.
    + constructor; [|exact Hf].
      rewrite word_count_join by (by apply slice_Forall).
      apply (slice_length 0). exact E.
    + unfold s2. cbn -[drop take translate_effect].
      by rewrite translatedArray_translate_effect.
Qed.

Lemma default_renders_settle (fuel : nat) (s : Default.App) :
  length (Default.wordArray s) <= fuel ->
  length (Default.wordArray (Default.renders_after_wordArray fuel s))
    < Default.WORDS_PER_PHRASE.
Proof.
  revert s. induction fuel as [|fuel IH]; intros s Hf;
    cbn [Default.renders_after_wordArray].
  - unfold Default.WORDS_PER_PHRASE. lia.
  - destruct (Default.WORDS_PER_PHRASE <=? length (Default.wordArray s)) eqn:E.
    + apply Nat.leb_le in E. apply IH. cbn -[drop]. unfold slice_from.
      rewrite length_drop. unfold Default.WORDS_PER_PHRASE in *. lia.
    + by apply Nat.leb_gt in E.
Qed.

(** The fuel [settle_words] gives is enough: fewer than N words are left
    waiting when the renders stop. *)
Lemma default_settle_words_settled (s : Default.App) :
  length (Default.wordArray (Default.settle_words s)) < Default.WORDS_PER_PHRASE.
Proof. unfold Default.settle_words. by apply default_renders_settle. Qed.

Lemma default_words_only_on_final (t : string) (s : Default.App) :
  words_only s ->
  words_only (Default.on_final t s) /\
  Default.pipe (Default.on_final t s) = Default.pipe s.
Proof.
  intros Hw. unfold Default.on_final.
  destruct (truthy (Default.textToAdd_of s t)); simpl; [|done].
  split; [|done]. apply Forall_app. split; [exact Hw | apply words_are_words].
Qed.

(** What one recognition event adds to the phrase queue, in the default
    view: only full phrases. *)
Lemma default_onresult_adds_full_phrases (results : list Default.Result) (s : Default.App) :
  words_only s ->
  exists added,
    phraseArray (Default.pipe (Default.onresult results s)) =
      phraseArray (Default.pipe s) ++ added
    /\ full_phrases added
    /\ words_only (Default.onresult results s).
Proof.
  intros Hw. unfold Default.onresult.
  destruct (Default.collect results EmptyString EmptyString) as [it ft].
  destruct (truthy (trim ft)).
  - destruct (default_words_only_on_final (trim ft) s Hw) as [Hw1 Hp1].
    destruct (default_renders_after_wordArray
                (length (Default.wordArray (Default.on_final (trim ft) s))) _ Hw1)
      as (added & Hp & Hf & _ & Hw').
    exists added. unfold Default.settle_words. rewrite Hp, Hp1. done.
  - destruct (truthy (trim it)).
    2:{ nothing_added. }
    rewrite default_on_interim_spec.
    destruct (Default.processedWordCountRef s + Default.WORDS_PER_PHRASE
                <=? length (words (trim it))) eqn:E.
    + apply Nat.leb_le in E. eexists [_]. cbn -[translate_effect].
      rewrite phraseArray_translate_effect. simpl.
      split; [done|]. split; [|exact Hw].
      constructor; [|constructor]. by apply word_count_slice.
    + exists []. cbn -[translate_effect].
      rewrite phraseArray_translate_effect, app_nil_r.
      repeat split; auto. constructor.
Qed.

(** *** iPhone view *)

Lemma iphone_onPartialTranscript_spec (text : string) (s : Iphone.App) :
  let ws := words (trim text) in
  let n := Iphone.processedWordCountRef s in
  Iphone.onPartialTranscript text s =
    if n + Iphone.WORDS_PER_PHRASE <=? length ws then
      Iphone.set_processedWordCountRef (n + Iphone.WORDS_PER_PHRASE)
        (Iphone.onPhrase (join (slice n (n + Iphone.WORDS_PER_PHRASE) ws)) s)
    else s.
Proof.
  intros ws n. unfold Iphone.onPartialTranscript. fold ws. fold n.
  destruct (n + Iphone.WORDS_PER_PHRASE <=? length ws) eqn:E.
  - apply Nat.leb_le in E.
    assert (Ht : truthy text && truthy (trim text) = true).
    { destruct text as [|c r]; [by (unfold Iphone.WORDS_PER_PHRASE in E; simpl in *; lia)|].
      simpl. subst ws. destruct (trim (String c r)); [|done].
      unfold Iphone.WORDS_PER_PHRASE in E. simpl in E. lia. }
    rewrite Ht.
    destruct (Z.leb_spec (Z.of_nat Iphone.WORDS_PER_PHRASE)
                (Z.of_nat (length ws) - Z.of_nat n)); [done | lia].
  - apply Nat.leb_gt in E.
    destruct (truthy text && truthy (trim text)); [|done].
    destruct (Z.leb_spec (Z.of_nat Iphone.WORDS_PER_PHRASE)
                (Z.of_nat (length ws) - Z.of_nat n)); [lia | done].
Qed.

Lemma iphone_onCommittedTranscript_spec (text : string) (s : Iphone.App) :
  let ws := words (trim text) in
  let n := Iphone.processedWordCountRef s in
  Iphone.onCommittedTranscript text s =
    if n <? length ws then
      Iphone.set_processedWordCountRef 0 (Iphone.onPhrase (join (slice_from n ws)) s)
    else if truthy text && truthy (trim text)
         then Iphone.set_processedWordCountRef 0 s else s.
Proof.
  intros ws n. unfold Iphone.onCommittedTranscript. fold ws. fold n.
  destruct (n <? length ws) eqn:E.
  - apply Nat.ltb_lt in E.
    assert (Ht : truthy text && truthy (trim text) = true).
    { destruct text as [|c r]; [by (simpl in *; lia)|].
      simpl. subst ws. destruct (trim (String c r)); [|done]. simpl in E. lia. }
    rewrite Ht.
    rewrite join_words_truthy; [done | |].
    + apply slice_from_Forall, words_are_words.
    + unfold slice_from. intros Hd. apply (f_equal length) in Hd.
      rewrite length_drop in Hd. simpl in Hd. lia.
  - by destruct (truthy text && truthy (trim text)).
Qed.

Lemma iphone_onPhrase_phraseArray (phrase : string) (s : Iphone.App) :
  phraseArray (Iphone.pipe (Iphone.onPhrase phrase s)) =
    phraseArray (Iphone.pipe s) ++ [phrase].
Proof.
  unfold Iphone.onPhrase, enqueue_phrase. simpl.
  by rewrite phraseArray_translate_effect.
Qed.

End Segmenter.

(** ** Claims about the segmenter *)

Section SegmenterClaims.

Import Default.

(** C1 (violated by the default view).  A partial of twelve words emits
    the first ten as a phrase and is retained whole as the dedup baseline;
    the final with the same text is then skipped entirely, so the words
    "k" and "l" reach neither a phrase nor the word array. *)
Theorem default_final_drops_words_beyond_last_group :
  exists s',
    Default.run [Recognition [(twelve_words, false)];
                 Recognition [(twelve_words, true)]] default_started = Some s'
    /\ phraseArray (Default.pipe s') = ["a b c d e f g h i j"]
    /\ Default.wordArray s' = []
    /\ ("k" ∈ words twelve_words) /\ ("k" ∉ accounted_words s')
    /\ ("l" ∈ words twelve_words) /\ ("l" ∉ accounted_words s').
Proof.
  eexists. split; [vm_compute; reflexivity|].
  cbn [Default.pipe phraseArray Default.wordArray].
  split; [reflexivity|]. split; [reflexivity|].
  repeat apply conj; by_computation.
Qed.

(** The sibling path of the iPhone view emits the same two words when the
    transcript is committed. *)
Lemma iphone_commit_emits_words_beyond_last_group :
  option_map (fun s => phraseArray (Iphone.pipe s))
    (Iphone.run [Iphone.PartialTranscript twelve_words;
                 Iphone.CommittedTranscript twelve_words] iphone_connected)
  = Some ["a b c d e f g h i j"; "k l"].
Proof. vm_compute. reflexivity. Qed.

(** C2, counterexample.  A partial that brings twenty unprocessed words
    yields one phrase, not two, in either view. *)
Lemma partial_of_two_groups_emits_one_phrase :
  (2 * Default.WORDS_PER_PHRASE <=
     length (words (trim twenty_words)) - Default.processedWordCountRef default_started
   /\ phraseArray (Default.pipe (Default.onresult [(twenty_words, false)] default_started))
      = ["a1 a2 a3 a4 a5 a6 a7 a8 a9 a10"]
   /\ Default.processedWordCountRef (Default.onresult [(twenty_words, false)] default_started)
      = 10)
  /\ (2 * Iphone.WORDS_PER_PHRASE <=
        length (words (trim twenty_words)) - Iphone.processedWordCountRef iphone_connected
      /\ phraseArray (Iphone.pipe (Iphone.onPartialTranscript twenty_words iphone_connected))
         = ["a1 a2 a3 a4 a5 a6 a7 a8 a9 a10"]
      /\ Iphone.processedWordCountRef (Iphone.onPartialTranscript twenty_words iphone_connected)
         = 10).
Proof. vm_compute. repeat split; lia. Qed.

(** C2, amended.  A partial revision emits at most one phrase: when at
    least N words lie beyond the processed count, the next N words are
    emitted as one phrase and the count advances by N, once; otherwise
    nothing is emitted and the count stays. *)
Theorem partial_emits_at_most_one_phrase
    (s : Default.App) (t : Iphone.App) (text : string) :
  let ws := words (trim text) in
  let n := Default.processedWordCountRef s in
  let m := Iphone.processedWordCountRef t in
  let s' := Default.onresult [(text, false)] s in
  let t' := Iphone.onPartialTranscript text t in
  adds_phrases (Default.pipe s) (Default.pipe s')
    (if n + Default.WORDS_PER_PHRASE <=? length ws
     then [join (slice n (n + Default.WORDS_PER_PHRASE) ws)] else [])
  /\ Default.processedWordCountRef s' =
       (if n + Default.WORDS_PER_PHRASE <=? length ws
        then n + Default.WORDS_PER_PHRASE else n)
  /\ adds_phrases (Iphone.pipe t) (Iphone.pipe t')
       (if m + Iphone.WORDS_PER_PHRASE <=? length ws
        then [join (slice m (m + Iphone.WORDS_PER_PHRASE) ws)] else [])
  /\ Iphone.processedWordCountRef t' =
       (if m + Iphone.WORDS_PER_PHRASE <=? length ws
        then m + Iphone.WORDS_PER_PHRASE else m).
Proof.
  intros ws n m s' t'. unfold adds_phrases.
  assert (Hd : phraseArray (Default.pipe s') =
                 phraseArray (Default.pipe s) ++
                   (if n + Default.WORDS_PER_PHRASE <=? length ws
                    then [join (slice n (n + Default.WORDS_PER_PHRASE) ws)] else [])
               /\ Default.processedWordCountRef s' =
                    (if n + Default.WORDS_PER_PHRASE <=? length ws
                     then n + Default.WORDS_PER_PHRASE else n)).
  { subst s'. unfold Default.onresult. rewrite default_collect_single.
    change (truthy (trim EmptyString)) with false. cbv iota.
    destruct (truthy (trim text)) eqn:Ht.
    - rewrite default_on_interim_spec. fold ws. fold n.
      destruct (n + Default.WORDS_PER_PHRASE <=? length ws).
      + cbn -[translate_effect]. by rewrite phraseArray_translate_effect.
      + cbn -[translate_effect].
        by rewrite phraseArray_translate_effect, app_nil_r.
    - assert (E : ws = []) by (subst ws; by destruct (trim text)).
      rewrite E. cbn [length].
      destruct (Nat.leb_spec (n + Default.WORDS_PER_PHRASE) 0) as [H|_].
      + unfold Default.WORDS_PER_PHRASE in H. lia.
      + by rewrite app_nil_r. }
  destruct Hd as [Hd1 Hd2]. split; [exact Hd1|]. split; [exact Hd2|].
  subst t'. rewrite iphone_onPartialTranscript_spec. fold ws. fold m.
  destruct (m + Iphone.WORDS_PER_PHRASE <=? length ws).
  - cbn -[enqueue_phrase]. split; [|done].
    apply (iphone_onPhrase_phraseArray _ t).
  - by rewrite app_nil_r.
Qed.




(** C7, counterexample.  With three words waiting in the word array, Stop
    emits no phrase and clears nothing. *)
Lemma default_stop_neither_flushes_nor_clears :
  Default.isListening default_three_pending = true
  /\ Default.wordArray default_three_pending = ["a"; "b"; "c"]
  /\ phraseArray (Default.pipe (Default.handleStartStop default_three_pending)) = []
  /\ Default.wordArray (Default.handleStartStop default_three_pending) = ["a"; "b"; "c"]
  /\ Default.allProcessedTextRef (Default.handleStartStop default_three_pending) = "a b c"
  /\ ~ flushed_and_cleared default_three_pending
         (Default.handleStartStop default_three_pending).
Proof.
  repeat split; try (vm_compute; reflexivity).
  intros (H & _). vm_compute in H. discriminate H.
Qed.

(** C7, amended.  Stop emits no phrase.  In the default view it changes
    nothing but the listening flag: word array, retained partial, counter
    and ledger keep their values (the next Start clears them).  In the
    iPhone view it disconnects and resets the processed-word counter. *)
Theorem stop_emits_nothing
    (s : Default.App) (t : Iphone.App) (r : Iphone.TokenResponse) (c : bool) :
  Default.isListening s = true ->
  Iphone.isConnected t = true ->
  (Default.handleStartStop s = Default.set_isListening false s
   /\ Default.pipe (Default.handleStartStop s) = Default.pipe s
   /\ Default.wordArray (Default.handleStartStop s) = Default.wordArray s
   /\ Default.lastInterimRef (Default.handleStartStop s) = Default.lastInterimRef s
   /\ Default.processedWordCountRef (Default.handleStartStop s)
      = Default.processedWordCountRef s
   /\ Default.allProcessedTextRef (Default.handleStartStop s)
      = Default.allProcessedTextRef s)
  /\ (Default.wordArray (Default.start s) = []
      /\ Default.lastInterimRef (Default.start s) = EmptyString
      /\ Default.processedWordCountRef (Default.start s) = 0
      /\ Default.allProcessedTextRef (Default.start s) = EmptyString)
  /\ (phraseArray (Iphone.pipe (Iphone.handleStartStop r c t)) = phraseArray (Iphone.pipe t)
      /\ Iphone.processedWordCountRef (Iphone.handleStartStop r c t) = 0
      /\ Iphone.isConnected (Iphone.handleStartStop r c t) = false
      /\ Iphone.requests (Iphone.handleStartStop r c t)
         = Iphone.requests t ++ [Iphone.ScribeDisconnect]).
Proof.
  intros Hs Ht. unfold Default.handleStartStop, Iphone.handleStartStop.
  rewrite Hs, Ht. repeat split.
Qed.

Lemma stop_emits_nothing_witness :
  Default.isListening default_three_pending = true
  /\ Iphone.isConnected iphone_connected = true
  /\ Default.wordArray (Default.handleStartStop default_three_pending)
     = Default.wordArray default_three_pending
  /\ Iphone.processedWordCountRef
       (Iphone.handleStartStop (token_ok "t2") true iphone_connected) = 0.
Proof.
  assert (H1 : Default.isListening default_three_pending = true) by reflexivity.
  assert (H2 : Iphone.isConnected iphone_connected = true) by reflexivity.
  pose proof (stop_emits_nothing default_three_pending iphone_connected
                (token_ok "t2") true H1 H2) as (Hd & _ & Hi).
  split; [exact H1|]. split; [exact H2|]. split.
  - exact (proj1 (proj2 (proj2 Hd))).
  - exact (proj1 (proj2 Hi)).
Defined.

End SegmenterClaims.

(** ** The two stages: locks and calls in flight *)

Section Stages.




(** *** The effects *)


Lemma translate_effect_speak_side (p : Pipeline) :
  utterances (translate_effect p) = utterances p
  /\ isSpeakingRef (translate_effect p) = isSpeakingRef p
  /\ translatedArray (translate_effect p) = translatedArray p
  /\ recentTranslations (translate_effect p) = recentTranslations p.
Proof.
  unfold translate_effect. destruct (phraseArray p); [done|].
  by destruct (isTranslatingRef p).
Qed.


Lemma speak_effect_translate_side (p : Pipeline) :
  fetches (speak_effect p) = fetches p
  /\ isTranslatingRef (speak_effect p) = isTranslatingRef p
  /\ phraseArray (speak_effect p) = phraseArray p
  /\ translatedArray (speak_effect p) = translatedArray p
  /\ recentTranslations (speak_effect p) = recentTranslations p.
Proof.
  unfold speak_effect. destruct (translatedArray p) eqn:E; [by rewrite E|].
  destruct (isSpeakingRef p); [by rewrite E|]. simpl. by rewrite E.
Qed.






(** *** The completion paths *)


Lemma translate_settled_fields (v : Variant) (r : Response) (p : Pipeline) :
  fetches (translate_settled v r p) = fetches p
  /\ utterances (translate_settled v r p) = utterances p
  /\ isSpeakingRef (translate_settled v r p) = isSpeakingRef p
  /\ phraseArray (translate_settled v r p) = slice_from 1 (phraseArray p).
Proof. unfold translate_settled. by destruct (try_translate v r). Qed.





End Stages.

(** ** Runs of the two views keep the stages single-flight *)

Section Runs.

Lemma set_phraseArray_sf (v : list string) (p : Pipeline) :
  single_flight p -> single_flight (set_phraseArray v p).
Proof. done. Qed.

Lemma set_selectedLanguage_sf (v : string) (p : Pipeline) :
  single_flight p -> single_flight (set_selectedLanguage v p).
Proof. done. Qed.




(** *** Default view *)






(** *** iPhone view *)







End Runs.

(** ** Claims about the translation and playback stages *)

Section StageClaims.

(** C4 (violated).  The safety timeout of a playback neither cancels the
    utterance nor detaches its handlers.  With "T1", "T2", "T3" queued and
    "T1" being spoken: the timeout removes "T1" and "T2" starts; the late
    [onend] of the first utterance then removes "T2" and releases the lock
    while "T2" is still awaited, so "T3" starts as well. *)
Theorem late_signal_after_timeout_removes_a_second_item :
  exists s1 s2 s3,
    Default.run three_translations default_started = Some s1
    /\ translatedArray (Default.pipe s1)
       = [VJson (JStr "T1"); VJson (JStr "T2"); VJson (JStr "T3")]
    /\ utterance_texts (Default.pipe s1) = [VJson (JStr "T1")]
    /\ Default.step (Default.Pipe (SafetyTimeout 0)) s1 = Some s2
    /\ translatedArray (Default.pipe s2) = [VJson (JStr "T2"); VJson (JStr "T3")]
    /\ utterance_texts (Default.pipe s2) = [VJson (JStr "T1"); VJson (JStr "T2")]
    /\ awaited_utterances (Default.pipe s2) = 1
    /\ Default.step (Default.Pipe (UtteranceEnd 0)) s2 = Some s3
    /\ translatedArray (Default.pipe s3) = [VJson (JStr "T3")]
    /\ utterances (Default.pipe s3) !! 1
       = Some {| u_text := VJson (JStr "T2"); u_timer := true; u_live := true |}
    /\ utterances (Default.pipe s3) !! 2
       = Some {| u_text := VJson (JStr "T3"); u_timer := true; u_live := true |}
    /\ awaited_utterances (Default.pipe s3) = 2.
Proof.
  do 3 eexists.
  split; [vm_compute; reflexivity|]. split; [reflexivity|]. split; [reflexivity|].
  split; [vm_compute; reflexivity|]. split; [reflexivity|]. split; [reflexivity|].
  split; [reflexivity|].
  split; [vm_compute; reflexivity|]. repeat split.
Qed.

(** When the engine signals first, the timer is cleared and cannot fire. *)
Lemma signal_first_cancels_timeout (i : nat) (p : Pipeline) :
  pipe_step DefaultView (SafetyTimeout i) (speak_effect (on_utterance_signal i p)) = None
  \/ length (utterances p) <= i.
Proof.
  destruct (decide (i < length (utterances p))) as [Hlt|]; [left | right; lia].
  destruct (lookup_lt_is_Some_2 (utterances p) i Hlt) as [u Hu].
  set (q := on_utterance_signal i p).
  assert (Hq : utterances q !! i
               = Some {| u_text := u_text u; u_timer := false; u_live := false |}).
  { unfold q. cbn [on_utterance_signal signal_done clear_timer set_utterances
                   set_isSpeakingRef set_translatedArray utterances].
    rewrite !list_lookup_alter_eq, Hu. done. }
  assert (Hs : utterances (speak_effect q) !! i
               = Some {| u_text := u_text u; u_timer := false; u_live := false |}).
  { unfold speak_effect. destruct (translatedArray q); [done|].
    destruct (isSpeakingRef q); [done|].
    cbn [set_utterances utterances set_isSpeakingRef set_currentTranslation].
    rewrite lookup_app_l; [done|]. by apply lookup_lt_Some in Hq. }
  simpl. by rewrite Hs.
Qed.





Lemma translation_failure_iff (v : Variant) (r : Response) :
  translation_failure v r <-> try_translate v r = None.
Proof.
  split.
  - by intros [ |body| |data H].
  - destruct r as [|[] [data|]]; simpl; intros H; try done; by constructor.
Qed.


End StageClaims.

(** ** Claims about the session controller and the credentials *)

Section ControllerClaims.







(** *** Token and password *)

Lemma iphone_getToken_storage (pw : string) (r : Iphone.TokenResponse) (t : Iphone.App) :
  Iphone.localStorage (fst (Iphone.getToken pw r t)) = Iphone.localStorage t
  /\ Iphone.password (fst (Iphone.getToken pw r t)) = Iphone.password t
  /\ Iphone.passwordInput (fst (Iphone.getToken pw r t)) = Iphone.passwordInput t
  /\ Iphone.isConnected (fst (Iphone.getToken pw r t)) = Iphone.isConnected t.
Proof.
  unfold Iphone.getToken. destruct (negb (truthy pw)); [done|].
  by destruct (Iphone.token_of_response r).
Qed.

Lemma iphone_getToken_result (pw : string) (r : Iphone.TokenResponse) (t : Iphone.App) :
  truthy pw = true ->
  snd (Iphone.getToken pw r t) = Iphone.token_of_response r
  /\ Iphone.requests (fst (Iphone.getToken pw r t))
     = Iphone.requests t ++ [Iphone.TokenFetch pw]
  /\ Iphone.token (fst (Iphone.getToken pw r t))
     = match Iphone.token_of_response r with
       | inr newToken => Some newToken
       | inl _ => Iphone.token t
       end.
Proof.
  intros H. unfold Iphone.getToken. rewrite H. cbn [negb].
  by destruct (Iphone.token_of_response r).
Qed.

Lemma iphone_start_spec (r : Iphone.TokenResponse) (c : bool) (t : Iphone.App) :
  truthy (Iphone.password t) = true ->
  Iphone.requests (Iphone.start r c t)
    = Iphone.requests t ++ start_requests (Iphone.password t) r c
  /\ Iphone.localStorage (Iphone.start r c t) = Iphone.localStorage t
  /\ Iphone.password (Iphone.start r c t) = Iphone.password t
  /\ Iphone.isConnected (Iphone.start r c t)
     = match Iphone.token_of_response r with
       | inr _ => if c then true else Iphone.isConnected t
       | inl _ => Iphone.isConnected t
       end.
Proof.
  intros H. unfold Iphone.start, start_requests. rewrite H. cbn [negb]. cbv iota.
  match goal with
  | |- context [Iphone.getToken ?pw r ?x] =>
      pose proof (iphone_getToken_result pw r x H) as (Hres & Hreq & _);
      pose proof (iphone_getToken_storage pw r x) as (Hls & Hpw & _ & Hcon);
      destruct (Iphone.getToken pw r x) as [t2 res]
  end.
  cbn [fst snd] in *. subst res.
  destruct (Iphone.token_of_response r) as [e|tok].
  - cbn [Iphone.send Iphone.requests Iphone.localStorage Iphone.password Iphone.isConnected].
    rewrite Hreq, Hls, Hpw, Hcon. cbn. rewrite <- !app_assoc. done.
  - destruct c;
      cbn [Iphone.send Iphone.set_isConnected Iphone.requests Iphone.localStorage
             Iphone.password Iphone.isConnected];
      rewrite Hreq, Hls, Hpw, ?Hcon; cbn; rewrite <- !app_assoc; done.
Qed.

(** What an event may do to [localStorage]: nothing, store the typed
    password under the password key, or delete that key. *)
Lemma iphone_step_storage (e : Iphone.Event) (t t' : Iphone.App) :
  Iphone.step e t = Some t' ->
  Iphone.localStorage t' = Iphone.localStorage t
  \/ (exists r, e = Iphone.PasswordSubmit r
                /\ Iphone.localStorage t'
                   = <[Iphone.PASSWORD_STORAGE_KEY := Iphone.passwordInput t]>
                       (Iphone.localStorage t))
  \/ (e = Iphone.Logout
      /\ Iphone.localStorage t' = delete Iphone.PASSWORD_STORAGE_KEY (Iphone.localStorage t)).
Proof.
  intros Hstep.
  destruct e as [text|text|r c|text|r| |r|code| |pe]; simpl in Hstep.
  - destruct (Iphone.isConnected t); [|done]. injection Hstep as <-. left.
    rewrite iphone_onPartialTranscript_spec. by destruct (_ <=? _).
  - destruct (Iphone.isConnected t); [|done]. injection Hstep as <-. left.
    rewrite iphone_onCommittedTranscript_spec.
    destruct (_ <? _); [done|]. by destruct (truthy text && truthy (trim text)).
  - destruct (truthy (Iphone.password t)) eqn:Hpw; [|done].
    destruct (bool_decide (is_Some (Iphone.token t))); [|done].
    injection Hstep as <-. left. unfold Iphone.handleStartStop.
    destruct (Iphone.isConnected t); [done|].
    by destruct (iphone_start_spec r c t Hpw) as (_ & -> & _).
  - destruct (truthy (Iphone.password t)); [done|]. injection Hstep as <-. by left.
  - destruct (truthy (Iphone.password t)); [done|]. injection Hstep as <-.
    unfold Iphone.handlePasswordSubmit.
    destruct (negb (truthy (trim (Iphone.passwordInput t)))); [by left|].
    match goal with
    | |- context [Iphone.getToken ?pw r ?x] =>
        pose proof (iphone_getToken_storage pw r x) as (Hls & _ & Hpi & _);
        destruct (Iphone.getToken pw r x) as [t2 [e|tok]]
    end; cbn [fst] in *.
    + left. apply Hls.
    + right. left. exists r. split; [done|].
      cbn [Iphone.set_isAuthenticating Iphone.set_passwordInput Iphone.set_password
             Iphone.set_localStorage Iphone.localStorage].
      rewrite Hls, Hpi. done.
  - destruct (truthy (Iphone.password t)); [|done]. injection Hstep as <-.
    right. right. done.
  - injection Hstep as <-. left. unfold Iphone.token_effect.
    destruct (_ && _); [|done]. apply iphone_getToken_storage.
  - destruct (truthy (Iphone.password t) && negb (Iphone.isConnected t)); [|done].
    injection Hstep as <-. by left.
  - injection Hstep as <-. by left.
  - destruct (pipe_step IphoneView pe (Iphone.pipe t)); [|done].
    injection Hstep as <-. by left.
Qed.

End ControllerClaims.

Section CredentialClaims.

Lemma token_fetches_app (t t' : Iphone.App) (rs : list Iphone.Request) :
  Iphone.requests t' = Iphone.requests t ++ rs ->
  token_fetches t' = token_fetches t + length (List.filter is_token_fetch rs).
Proof.
  intros H. unfold token_fetches. by rewrite H, List.filter_app, length_app.
Qed.




Lemma truthy_trim (s : string) : truthy (trim s) = true -> truthy s = true.
Proof. by destruct s. Qed.

(** C10.  A successful password submission stores the typed password in
    [localStorage] under the password key and keeps the token in component
    state only; a mount over that storage reads the password back and
    starts without a token; no event but Logout removes the stored
    password, and Logout does; [getToken] never touches [localStorage]. *)
Theorem password_is_persisted
    (t : Iphone.App) (r : Iphone.TokenResponse) (tok : json) :
  truthy (trim (Iphone.passwordInput t)) = true ->
  Iphone.token_of_response r = inr tok ->
  let t' := Iphone.handlePasswordSubmit r t in
  (Iphone.localStorage t'
     = <[Iphone.PASSWORD_STORAGE_KEY := Iphone.passwordInput t]> (Iphone.localStorage t)
   /\ Iphone.password t' = Iphone.passwordInput t
   /\ Iphone.token t' = Some tok)
  /\ (Iphone.password (Iphone.mount (Iphone.localStorage t')) = Iphone.passwordInput t
      /\ Iphone.token (Iphone.mount (Iphone.localStorage t')) = None)
  /\ (forall e u u',
         Iphone.step e u = Some u' -> e ≠ Iphone.Logout ->
         is_Some (Iphone.localStorage u !! Iphone.PASSWORD_STORAGE_KEY) ->
         is_Some (Iphone.localStorage u' !! Iphone.PASSWORD_STORAGE_KEY))
  /\ (forall u, Iphone.localStorage (Iphone.handleLogout u) !! Iphone.PASSWORD_STORAGE_KEY
                = None)
  /\ (forall pw r' u,
         Iphone.localStorage (fst (Iphone.getToken pw r' u)) = Iphone.localStorage u).
Proof.
  intros Hin Hr t'.
  assert (Hsub : Iphone.localStorage t'
                 = <[Iphone.PASSWORD_STORAGE_KEY := Iphone.passwordInput t]>
                     (Iphone.localStorage t)
                 /\ Iphone.password t' = Iphone.passwordInput t
                 /\ Iphone.token t' = Some tok).
  { unfold t', Iphone.handlePasswordSubmit. rewrite Hin. cbn [negb]. cbv iota.
    match goal with
    | |- context [Iphone.getToken ?pw r ?x] =>
        pose proof (iphone_getToken_result pw r x (truthy_trim _ Hin)) as (Hres & _ & Htok);
        pose proof (iphone_getToken_storage pw r x) as (Hls & _ & Hpi & _);
        destruct (Iphone.getToken pw r x) as [t2 res]
    end.
    cbn [fst snd] in *. subst res. rewrite Hr in *.
    cbn [Iphone.set_isAuthenticating Iphone.set_passwordInput Iphone.set_password
           Iphone.set_localStorage Iphone.localStorage Iphone.password Iphone.token].
    rewrite Hls, Hpi, Htok. done. }
  split; [exact Hsub|]. destruct Hsub as (Hls & _ & _).
  split.
  { split; [|done]. unfold Iphone.mount. cbn [Iphone.password].
    rewrite Hls, lookup_insert_eq. done. }
  split.
  { intros e u u' Hstep Hne Hsome.
    destruct (iphone_step_storage e u u' Hstep) as [H|[(r' & _ & H)|(He & _)]].
    - by rewrite H.
    - rewrite H, lookup_insert_eq. by eexists.
    - done. }
  split.
  { intros u. cbn. apply lookup_delete_eq. }
  intros pw r' u. apply iphone_getToken_storage.
Qed.

Lemma password_is_persisted_witness :
  truthy (trim (Iphone.passwordInput iphone_password_typed)) = true
  /\ Iphone.token_of_response (token_ok "t0") = inr (JStr "t0")
  /\ Iphone.localStorage (Iphone.handlePasswordSubmit (token_ok "t0") iphone_password_typed)
     = <[Iphone.PASSWORD_STORAGE_KEY := "secret"]> ∅
  /\ Iphone.password
       (Iphone.mount
          (Iphone.localStorage
             (Iphone.handlePasswordSubmit (token_ok "t0") iphone_password_typed)))
     = "secret".
Proof.
  assert (H1 : truthy (trim (Iphone.passwordInput iphone_password_typed)) = true)
    by reflexivity.
  assert (H2 : Iphone.token_of_response (token_ok "t0") = inr (JStr "t0"))
    by reflexivity.
  pose proof (password_is_persisted iphone_password_typed (token_ok "t0") (JStr "t0") H1 H2)
    as ((Ha & _) & (Hb & _) & _).
  split; [exact H1|]. split; [exact H2|]. split; [exact Ha | exact Hb].
Defined.

End CredentialClaims.

(** ** Sanity checks on concrete inputs *)

Section Checks.

Example split_ws_pieces : split_ws " a  b " = [""; "a"; "b"; ""].
Proof. reflexivity. Qed.

Example words_of_trimmed :
  words (trim "  the quick   brown fox ") = ["the"; "quick"; "brown"; "fox"].
Proof. reflexivity. Qed.

Example join_three : join ["the"; "quick"; "brown"] = "the quick brown".
Proof. reflexivity. Qed.

(** A partial of seven words emits nothing; the final of ten words then
    gives exactly one phrase, and the ledger holds that text. *)
Example seven_then_ten :
  option_map
    (fun s => (phraseArray (Default.pipe s), Default.wordArray s,
               Default.allProcessedTextRef s))
    (Default.run
       [Default.Recognition [("the quick brown fox jumps over the", false)];
        Default.Recognition [("the quick brown fox jumps over the lazy dog now", true)]]
       default_started)
  = Some (["the quick brown fox jumps over the lazy dog now"], [],
          "the quick brown fox jumps over the lazy dog now").
Proof. vm_compute. reflexivity. Qed.

Example payload_default :
  try_translate DefaultView (google_ok "hello") = Some (VJson (JStr "hello")).
Proof. reflexivity. Qed.

Example payload_iphone_segments :
  try_translate IphoneView
    (Http true (Some (JArr [JArr [JArr [JStr "Hello "; JStr "x"];
                                  JArr [JStr "world"; JNull]]])))
  = Some (VJson (JStr "Hello world")).
Proof. reflexivity. Qed.

Example payload_empty_object_throws :
  try_translate DefaultView (Http true (Some (JObj []))) = None
  /\ try_translate IphoneView (Http true (Some (JObj []))) = None.
Proof. split; reflexivity. Qed.

(** The word array holds words only, in every state a run reaches. *)
Lemma words_only_step (e : Default.Event) (s s' : Default.App) :
  Default.step e s = Some s' -> words_only s -> words_only s'.
Proof.
  intros Hstep Hw. destruct e as [results| |code|pe]; simpl in Hstep.
  - injection Hstep as <-.
    by destruct (default_onresult_adds_full_phrases results s Hw) as (_ & _ & _ & H).
  - injection Hstep as <-. unfold Default.handleStartStop.
    destruct (Default.isListening s); [done | constructor].
  - destruct (Default.isListening s); [done|]. by injection Hstep as <-.
  - destruct (pipe_step DefaultView pe (Default.pipe s)); [|done].
    by injection Hstep as <-.
Qed.

Lemma words_only_run (es : list Default.Event) (s s' : Default.App) :
  Default.run es s = Some s' -> words_only s -> words_only s'.
Proof.
  revert s. induction es as [|e es IH]; intros s Hrun Hw; simpl in Hrun.
  - by injection Hrun as <-.
  - destruct (Default.step e s) as [s1|] eqn:E; [|done].
    apply (IH s1 Hrun). by eapply words_only_step.
Qed.

Lemma words_only_initial : words_only Default.initial.
Proof. constructor. Qed.

End Checks.

(** * Further properties of the code *)

(** ** The segmenter of the default view *)

Section SegmenterMore.

Lemma blank_app (a b : string) : blank (a +:+ b) = blank a && blank b.
Proof.
  induction a as [|c r IH]; [done|]. rewrite append_cons. simpl.
  by rewrite IH, andb_assoc.
Qed.

Lemma trim_blank (s : string) : blank s = true -> trim s = EmptyString.
Proof.
  unfold trim. induction s as [|c r IH]; [done|]. simpl.
  intros H. apply andb_prop in H as [-> H]. by apply IH.
Qed.

Lemma collect_blank (results : list Default.Result) (it ft : string) :
  Forall (fun r => blank (fst r) = true) results ->
  blank it = true -> blank ft = true ->
  blank (fst (Default.collect results it ft)) = true
  /\ blank (snd (Default.collect results it ft)) = true.
Proof.
  intros H. revert it ft.
  induction H as [|[tr fin] rest Hb _ IH]; intros it ft Hi Hf; [done|].
  simpl in Hb. simpl. destruct fin; apply IH; try done.
  - rewrite !blank_app, Hf, Hb. done.
  - rewrite blank_app, Hi, Hb. done.
Qed.

(** A recognition event that carries no result, or only white space, leaves
    the view as it is. *)
Theorem default_blank_event_changes_nothing
    (results : list Default.Result) (s : Default.App) :
  Forall (fun r => blank (fst r) = true) results ->
  Default.onresult results s = s.
Proof.
  intros H. unfold Default.onresult.
  destruct (collect_blank results EmptyString EmptyString H eq_refl eq_refl) as [Hi Hf].
  destruct (Default.collect results EmptyString EmptyString) as [it ft].
  simpl in Hi, Hf. by rewrite (trim_blank ft Hf), (trim_blank it Hi).
Qed.

Lemma default_blank_event_changes_nothing_witness :
  Default.onresult [("  ", false); (" ", true)] default_three_pending
  = default_three_pending.
Proof.
  apply default_blank_event_changes_nothing. repeat constructor.
Defined.

Lemma collect_final_part (results : list Default.Result) (it it' ft : string) :
  snd (Default.collect results it ft) = snd (Default.collect results it' ft).
Proof.
  revert it it' ft. induction results as [|[tr fin] rest IH]; intros it it' ft; [done|].
  destruct fin; simpl; apply IH.
Qed.

Lemma collect_finals (results : list Default.Result) (it ft : string) :
  snd (Default.collect (finals_only results) it ft) = snd (Default.collect results it ft)
  /\ fst (Default.collect (finals_only results) it ft) = it.
Proof.
  revert it ft. induction results as [|[tr fin] rest IH]; intros it ft; [done|].
  destruct fin; simpl.
  - apply IH.
  - destruct (IH it ft) as [H2 H3]. split; [|exact H3].
    rewrite H2. apply collect_final_part.
Qed.

(** When an event brings a final result that is not blank, the interim
    results of the same event are ignored: the event acts as its final
    results alone would. *)
Theorem default_final_overrides_interim
    (results : list Default.Result) (s : Default.App) :
  truthy (trim (snd (Default.collect results EmptyString EmptyString))) = true ->
  Default.onresult results s = Default.onresult (finals_only results) s.
Proof.
  intros H. unfold Default.onresult.
  destruct (collect_finals results EmptyString EmptyString) as [Hs Hf].
  destruct (Default.collect results EmptyString EmptyString) as [it ft].
  destruct (Default.collect (finals_only results) EmptyString EmptyString) as [it' ft'].
  simpl in *. subst. by rewrite H.
Qed.

Lemma default_final_overrides_interim_witness :
  Default.onresult [(twenty_words, false); (three_words, true)] default_started
  = Default.onresult [(three_words, true)] default_started.
Proof.
  exact (default_final_overrides_interim
           [(twenty_words, false); (three_words, true)] default_started eq_refl).
Defined.

(** PROCESS 2 neither loses nor reorders words: the words of the phrases it
    adds, followed by the words still waiting, are the words that were
    waiting. *)
Lemma default_renders_conserve_words (fuel : nat) (s : Default.App) :
  words_only s ->
  exists added,
    adds_phrases (Default.pipe s)
      (Default.pipe (Default.renders_after_wordArray fuel s)) added
    /\ flat_map words added ++ Default.wordArray (Default.renders_after_wordArray fuel s)
       = Default.wordArray s.
Proof.
  unfold adds_phrases.
  revert s. induction fuel as [|fuel IH]; intros s Hw;
    cbn [Default.renders_after_wordArray].
  - exists []. by rewrite app_nil_r.
  - destruct (Default.WORDS_PER_PHRASE <=? length (Default.wordArray s)) eqn:E.
    2:{ exists []. by rewrite app_nil_r. }
    match goal with |- context [Default.renders_after_wordArray fuel ?x] => set (s2 := x) end.
    assert (Hw2 : words_only s2).
    { unfold words_only, s2. cbn -[drop]. by apply Forall_drop. }
    destruct (IH s2 Hw2) as (added & Hp & Hc).
    exists (join (slice 0 Default.WORDS_PER_PHRASE (Default.wordArray s)) :: added).
    split.
    + rewrite Hp. unfold s2. cbn -[drop take translate_effect].
      rewrite phraseArray_translate_effect. cbn -[drop take].
      by rewrite <- app_assoc.
    + cbn [flat_map]. rewrite words_join by (by apply slice_Forall).
      rewrite <- app_assoc, Hc. unfold s2. cbn -[drop take].
      unfold slice, slice_from. rewrite drop_0, Nat.sub_0_r.
      apply take_drop.
Qed.

(** A final result adds its new words to the word array and PROCESS 2 moves
    them into phrases of N words: no word is lost, repeated or reordered on
    the way, and fewer than N words are left waiting. *)
Theorem default_final_conserves_words (transcript : string) (s : Default.App) :
  words_only s ->
  exists added,
    adds_phrases (Default.pipe s)
      (Default.pipe (Default.settle_words (Default.on_final transcript s))) added
    /\ full_phrases added
    /\ flat_map words added
         ++ Default.wordArray (Default.settle_words (Default.on_final transcript s))
       = Default.wordArray s ++ words (Default.textToAdd_of s transcript)
    /\ length (Default.wordArray (Default.settle_words (Default.on_final transcript s)))
       < Default.WORDS_PER_PHRASE.
Proof.
  intros Hw.
  destruct (default_words_only_on_final transcript s Hw) as [Hw1 Hp1].
  unfold Default.settle_words.
  set (s1 := Default.on_final transcript s) in *.
  destruct (default_renders_conserve_words (length (Default.wordArray s1)) s1 Hw1)
    as (added & Hp & Hc).
  destruct (default_renders_after_wordArray (length (Default.wordArray s1)) s1 Hw1)
    as (added' & Hp' & Hf & _).
  unfold adds_phrases in Hp. rewrite Hp in Hp'. apply app_inv_head in Hp'. subst added'.
  exists added. unfold adds_phrases. rewrite Hp, Hp1. split; [done|]. split; [exact Hf|].
  split; [|by apply default_renders_settle].
  rewrite Hc. unfold s1, Default.on_final.
  destruct (truthy (Default.textToAdd_of s transcript)) eqn:Ht; cbn.
  - done.
  - destruct (Default.textToAdd_of s transcript); [|done]. by rewrite app_nil_r.
Qed.

Lemma default_final_conserves_words_witness :
  words_only default_three_pending
  /\ exists added,
      adds_phrases (Default.pipe default_three_pending)
        (Default.pipe (Default.settle_words
                         (Default.on_final twelve_words default_three_pending))) added
      /\ flat_map words added
           ++ Default.wordArray (Default.settle_words
                                   (Default.on_final twelve_words default_three_pending))
         = Default.wordArray default_three_pending
             ++ words (Default.textToAdd_of default_three_pending twelve_words).
Proof.
  assert (H : words_only default_three_pending).
  { unfold words_only. vm_compute. repeat constructor. }
  split; [exact H|].
  destruct (default_final_conserves_words twelve_words default_three_pending H)
    as (added & Ha & _ & Hc & _).
  exists added. split; [exact Ha | exact Hc].
Defined.

End SegmenterMore.

Section Dedup.

Lemma startsWith_app (p x : string) : startsWith (p +:+ x) p = true.
Proof.
  induction p as [|c r IH]; [by destruct x|].
  rewrite append_cons. simpl. by rewrite Ascii.eqb_refl.
Qed.

Lemma substring_app (p x : string) : substring (String.length p) (p +:+ x) = x.
Proof. induction p as [|c r IH]; [done|]. by rewrite append_cons. Qed.

Lemma startsWith_inv (s p : string) :
  startsWith s p = true -> s = p +:+ substring (String.length p) s.
Proof.
  revert s. induction p as [|a p IH]; intros s H; [done|].
  destruct s as [|b s]; [done|]. simpl in H.
  destruct (Ascii.eqb_spec a b) as [->|]; [|done].
  rewrite append_cons. simpl. f_equal. by apply IH.
Qed.

(** A final that begins with the retained partial contributes only the text
    after it, whatever the processed count: the words of the retained partial
    are taken as already emitted.  The retained partial and the counter are
    then reset. *)
Theorem default_final_after_retained_partial (rest : string) (s : Default.App) :
  truthy (Default.lastInterimRef s) = true ->
  Default.textToAdd_of s (Default.lastInterimRef s +:+ rest) = trim rest
  /\ Default.wordArray (Default.on_final (Default.lastInterimRef s +:+ rest) s)
     = Default.wordArray s ++ words (trim rest)
  /\ Default.allProcessedTextRef (Default.on_final (Default.lastInterimRef s +:+ rest) s)
     = (if truthy (trim rest)
        then trim (Default.allProcessedTextRef s +:+ " " +:+ trim rest)
        else Default.allProcessedTextRef s)
  /\ Default.lastInterimRef (Default.on_final (Default.lastInterimRef s +:+ rest) s)
     = EmptyString
  /\ Default.processedWordCountRef (Default.on_final (Default.lastInterimRef s +:+ rest) s)
     = 0.
Proof.
  intros H.
  assert (E : Default.textToAdd_of s (Default.lastInterimRef s +:+ rest) = trim rest).
  { unfold Default.textToAdd_of. by rewrite H, startsWith_app, substring_app. }
  split; [exact E|]. unfold Default.on_final. rewrite E.
  destruct (truthy (trim rest)) eqn:Ht; cbn; repeat split.
  destruct (trim rest); [|done]. by rewrite app_nil_r.
Qed.

Lemma default_final_after_retained_partial_witness :
  truthy (Default.lastInterimRef
            (Default.onresult [(twelve_words, false)] default_started)) = true
  /\ Default.wordArray
       (Default.on_final
          (Default.lastInterimRef (Default.onresult [(twelve_words, false)] default_started)
             +:+ " m n")
          (Default.onresult [(twelve_words, false)] default_started))
     = Default.wordArray (Default.onresult [(twelve_words, false)] default_started)
         ++ words (trim " m n").
Proof.
  assert (H : truthy (Default.lastInterimRef
                        (Default.onresult [(twelve_words, false)] default_started)) = true)
    by reflexivity.
  split; [exact H|].
  exact (proj1 (proj2 (default_final_after_retained_partial " m n" _ H))).
Defined.

(** With no partial retained, a final that begins with the ledger
    contributes only the text after it; a final that does not begin with the
    (non-empty) ledger is taken whole, so its words are processed even if
    they were processed before. *)
Theorem default_final_against_ledger (transcript rest : string) (s : Default.App) :
  Default.lastInterimRef s = EmptyString ->
  truthy (Default.allProcessedTextRef s) = true ->
  Default.textToAdd_of s (Default.allProcessedTextRef s +:+ rest) = trim rest
  /\ Default.wordArray (Default.on_final (Default.allProcessedTextRef s +:+ rest) s)
     = Default.wordArray s ++ words (trim rest)
  /\ if startsWith transcript (Default.allProcessedTextRef s) then
       transcript
       = Default.allProcessedTextRef s
           +:+ substring (String.length (Default.allProcessedTextRef s)) transcript
     else
       Default.textToAdd_of s transcript = transcript
       /\ Default.wordArray (Default.on_final transcript s)
          = Default.wordArray s ++ words transcript.
Proof.
  intros Hi Hl.
  assert (E : forall tr,
             Default.textToAdd_of s tr
             = if startsWith tr (Default.allProcessedTextRef s)
               then trim (substring (String.length (Default.allProcessedTextRef s)) tr)
               else tr).
  { intros tr. unfold Default.textToAdd_of. by rewrite Hi, Hl. }
  assert (W : forall tr,
             Default.wordArray (Default.on_final tr s)
             = Default.wordArray s ++ words (Default.textToAdd_of s tr)).
  { intros tr. unfold Default.on_final.
    destruct (truthy (Default.textToAdd_of s tr)) eqn:Ht; cbn; [done|].
    destruct (Default.textToAdd_of s tr); [|done]. by rewrite app_nil_r. }
  split; [by rewrite E, startsWith_app, substring_app|].
  split; [by rewrite W, E, startsWith_app, substring_app|].
  destruct (startsWith transcript (Default.allProcessedTextRef s)) eqn:Hs.
  - by apply startsWith_inv.
  - split; [by rewrite E, Hs|]. by rewrite W, E, Hs.
Qed.

Lemma default_final_against_ledger_witness :
  Default.lastInterimRef default_three_pending = EmptyString
  /\ truthy (Default.allProcessedTextRef default_three_pending) = true
  /\ Default.textToAdd_of default_three_pending
       (Default.allProcessedTextRef default_three_pending +:+ " d e") = trim " d e".
Proof.
  assert (H1 : Default.lastInterimRef default_three_pending = EmptyString) by reflexivity.
  assert (H2 : truthy (Default.allProcessedTextRef default_three_pending) = true)
    by reflexivity.
  split; [exact H1|]. split; [exact H2|].
  exact (proj1 (default_final_against_ledger "x" " d e" default_three_pending H1 H2)).
Defined.

(** *** The Scribe hook *)

Lemma prefix_slice {A} (wp wT : list A) (n k : nat) :
  wp `prefix_of` wT -> n + k <= length wp ->
  slice n (n + k) wp = slice n (n + k) wT.
Proof.
  intros [z ->] H. unfold slice.
  replace (n + k - n) with k by lia.
  rewrite drop_app_le by lia. rewrite take_app_le; [done|].
  rewrite length_drop. lia.
Qed.

Lemma iphone_partials_cons (text : string) (texts : list string) (t : Iphone.App) :
  iphone_partials (text :: texts) t
  = iphone_partials texts (Iphone.onPartialTranscript text t).
Proof. reflexivity. Qed.

Lemma iphone_partials_emit_prefix (texts : list string) (wT : list string) (t : Iphone.App) :
  Forall (fun text => words (trim text) `prefix_of` wT) texts ->
  Iphone.processedWordCountRef t <= length wT ->
  exists added,
    adds_phrases (Iphone.pipe t) (Iphone.pipe (iphone_partials texts t)) added
    /\ take (Iphone.processedWordCountRef t) wT ++ flat_map words added
       = take (Iphone.processedWordCountRef (iphone_partials texts t)) wT
    /\ Iphone.processedWordCountRef (iphone_partials texts t) <= length wT.
Proof.
  unfold adds_phrases. intros H. revert t.
  induction H as [|text texts Hp _ IH]; intros t Hn.
  - exists []. by rewrite !app_nil_r.
  - rewrite iphone_partials_cons, iphone_onPartialTranscript_spec.
    set (n := Iphone.processedWordCountRef t) in *.
    destruct (n + Iphone.WORDS_PER_PHRASE <=? length (words (trim text))) eqn:E.
    2:{ by apply IH. }
    apply Nat.leb_le in E.
    set (t1 := Iphone.set_processedWordCountRef _ _).
    assert (Hlen : n + Iphone.WORDS_PER_PHRASE <= length wT).
    { destruct Hp as [z ->]. rewrite length_app. lia. }
    destruct (IH t1 Hlen) as (added & Hadd & Hw & Hle).
    exists (join (slice n (n + Iphone.WORDS_PER_PHRASE) (words (trim text))) :: added).
    split; [|split; [|exact Hle]].
    + rewrite Hadd.
      assert (E1 : phraseArray (Iphone.pipe t1)
                   = phraseArray (Iphone.pipe t)
                       ++ [join (slice n (n + Iphone.WORDS_PER_PHRASE) (words (trim text)))])
        by apply (iphone_onPhrase_phraseArray _ t).
      rewrite E1. by rewrite <- app_assoc.
    + rewrite <- Hw. cbn [flat_map].
      rewrite words_join by apply slice_Forall, words_are_words.
      rewrite (prefix_slice _ wT n _ Hp E).
      unfold t1. cbn -[enqueue_phrase take drop]. fold n.
      rewrite !app_assoc. f_equal. unfold slice.
      replace (n + Iphone.WORDS_PER_PHRASE - n) with Iphone.WORDS_PER_PHRASE by lia.
      apply take_take_drop.
Qed.

(** In the iPhone view, partial transcripts that are each a beginning of the
    text finally committed, followed by that committed transcript, emit
    every word of the text exactly once and in order, and leave the counter
    at zero. *)
Theorem iphone_partials_then_commit_emit_each_word_once
    (texts : list string) (text : string) (t : Iphone.App) :
  Iphone.processedWordCountRef t = 0 ->
  Forall (fun partial => words (trim partial) `prefix_of` words (trim text)) texts ->
  exists added,
    adds_phrases (Iphone.pipe t)
      (Iphone.pipe (Iphone.onCommittedTranscript text (iphone_partials texts t))) added
    /\ flat_map words added = words (trim text)
    /\ Iphone.processedWordCountRef
         (Iphone.onCommittedTranscript text (iphone_partials texts t)) = 0.
Proof.
  intros H0 Hp.
  destruct (iphone_partials_emit_prefix texts (words (trim text)) t Hp) as
    (added & Hadd & Hw & Hle); [rewrite H0; lia|].
  rewrite H0, take_0 in Hw. rewrite app_nil_l in Hw. unfold adds_phrases in *.
  set (t1 := iphone_partials texts t) in *.
  rewrite iphone_onCommittedTranscript_spec.
  destruct (Iphone.processedWordCountRef t1 <? length (words (trim text))) eqn:E.
  - exists (added ++ [join (slice_from (Iphone.processedWordCountRef t1)
                                      (words (trim text)))]).
    split; [|split; [|done]].
    + etrans; [apply (iphone_onPhrase_phraseArray _ t1)|].
      rewrite Hadd. by rewrite <- app_assoc.
    + rewrite flat_map_app. cbn [flat_map]. rewrite app_nil_r.
      rewrite words_join by apply slice_from_Forall, words_are_words.
      rewrite Hw. unfold slice_from. apply take_drop.
  - apply Nat.ltb_ge in E. exists added.
    assert (Hall : flat_map words added = words (trim text)).
    { rewrite Hw. apply take_ge. lia. }
    destruct (truthy text && truthy (trim text)) eqn:Ht.
    + by repeat split.
    + repeat split; [done..|].
      assert (Hnil : words (trim text) = []).
      { destruct text as [|c r]; [done|]. simpl in Ht. by destruct (trim (String c r)). }
      rewrite Hnil in Hle. simpl in Hle. lia.
Qed.

Lemma iphone_partials_then_commit_emit_each_word_once_witness :
  Iphone.processedWordCountRef iphone_connected = 0
  /\ exists added,
      adds_phrases (Iphone.pipe iphone_connected)
        (Iphone.pipe (Iphone.onCommittedTranscript twelve_words
                        (iphone_partials [three_words; twelve_words] iphone_connected)))
        added
      /\ flat_map words added = words (trim twelve_words).
Proof.
  assert (H0 : Iphone.processedWordCountRef iphone_connected = 0) by reflexivity.
  split; [exact H0|].
  assert (Hp : Forall (fun partial => words (trim partial) `prefix_of`
                                        words (trim twelve_words))
                 [three_words; twelve_words]).
  { constructor; [by exists ["d"; "e"; "f"; "g"; "h"; "i"; "j"; "k"; "l"]|].
    constructor; [by exists []|constructor]. }
  destruct (iphone_partials_then_commit_emit_each_word_once
              [three_words; twelve_words] twelve_words iphone_connected H0 Hp)
    as (added & Ha & Hw & _).
  exists added. split; [exact Ha | exact Hw].
Defined.

End Dedup.

(** ** The stages: queues are served, in order *)

Section Served.







Lemma map_alter_same {A B} (f : A -> B) (g : A -> A) (i : nat) (l : list A) :
  (forall x, f (g x) = f x) -> List.map f (alter g i l) = List.map f l.
Proof.
  intros H. revert i. induction l as [|a l IH]; intros [|i]; simpl; try done.
  - by rewrite H.
  - f_equal. apply IH.
Qed.















End Served.

Section InOrder.

Lemma speak_effect_selectedLanguage (p : Pipeline) :
  selectedLanguage (speak_effect p) = selectedLanguage p.
Proof.
  unfold speak_effect. destruct (translatedArray p); [done|].
  by destruct (isSpeakingRef p).
Qed.

Lemma translate_effect_utterances (p : Pipeline) :
  utterances (translate_effect p) = utterances p
  /\ isSpeakingRef (translate_effect p) = isSpeakingRef p
  /\ translatedArray (translate_effect p) = translatedArray p
  /\ currentTranslation (translate_effect p) = currentTranslation p.
Proof.
  unfold translate_effect. destruct (phraseArray p); [done|].
  by destruct (isTranslatingRef p).
Qed.

Lemma lookup_last_snoc {A} (l : list A) (x : A) :
  (l ++ [x]) !! (length (l ++ [x]) - 1) = Some x.
Proof.
  rewrite length_app. simpl. replace (length l + 1 - 1) with (length l) by lia.
  by rewrite list_lookup_middle.
Qed.

Lemma alter_last_snoc {A} (g : A -> A) (l : list A) (x : A) :
  alter g (length (l ++ [x]) - 1) (l ++ [x]) = l ++ [g x].
Proof.
  rewrite length_app. simpl. replace (length l + 1 - 1) with (length l) by lia.
  induction l as [|a l IH]; [done|]. simpl. f_equal. exact IH.
Qed.

Lemma translate_effect_nil (q : Pipeline) :
  phraseArray q = [] -> translate_effect q = q.
Proof. intros H. unfold translate_effect. by rewrite H. Qed.

Lemma translate_effect_idle (q : Pipeline) (y : string) (rest : list string) :
  phraseArray q = y :: rest -> isTranslatingRef q = false ->
  translate_effect q
  = set_fetches
      (fetches q ++ [{| f_lang := selectedLanguage q; f_phrase := y; f_pending := true |}])
      (set_isTranslatingRef true q).
Proof. intros H L. unfold translate_effect. by rewrite H, L. Qed.

(** One settled fetch, with the stage awaiting the head phrase. *)
Lemma settle_head (v : Variant) (r : Response) (p : Pipeline)
    (x : string) (rest : list string) (fs : list Fetch) :
  phraseArray p = x :: rest ->
  isTranslatingRef p = true ->
  fetches p = fs ++ [{| f_lang := selectedLanguage p; f_phrase := x; f_pending := true |}] ->
  exists p',
    pipe_step v (FetchSettled (length (fetches p) - 1) r) p = Some p'
    /\ phraseArray p' = rest
    /\ selectedLanguage p' = selectedLanguage p
    /\ translatedArray p'
       = translatedArray p ++ (match try_translate v r with Some t => [t] | None => [] end)
    /\ List.map f_phrase (fetches p')
       = List.map f_phrase (fetches p) ++ take 1 rest
    /\ match rest with
       | [] => isTranslatingRef p' = false
       | _ :: _ => awaiting_head p'
       end.
Proof.
  intros Hp Hl Hf. eexists. split.
  { cbn [pipe_step]. rewrite Hf, lookup_last_snoc. cbn [f_pending]. reflexivity. }
  rewrite <- Hf.
  set (q := translate_settled v r (settle_fetch (length (fetches p) - 1) p)).
  assert (Hsf : fetches (settle_fetch (length (fetches p) - 1) p)
                = fs ++ [{| f_lang := selectedLanguage p; f_phrase := x;
                            f_pending := false |}]).
  { cbn [settle_fetch set_fetches fetches]. rewrite Hf. by rewrite alter_last_snoc. }
  assert (Hq : phraseArray q = rest /\ isTranslatingRef q = false
               /\ selectedLanguage q = selectedLanguage p
               /\ fetches q = fs ++ [{| f_lang := selectedLanguage p; f_phrase := x;
                                        f_pending := false |}]
               /\ translatedArray q
                  = translatedArray p
                      ++ (match try_translate v r with Some t => [t] | None => [] end)).
  { destruct (translate_settled_fields v r (settle_fetch (length (fetches p) - 1) p))
      as (E1 & _ & _ & E4).
    fold q in E1, E4. rewrite E1, E4, Hsf.
    cbn [settle_fetch set_fetches phraseArray]. rewrite Hp.
    repeat split; unfold q, translate_settled;
      destruct (try_translate v r); cbn; by rewrite ?app_nil_r. }
  destruct Hq as (Hq1 & Hq2 & Hq3 & Hq4 & Hq5).
  assert (Ht : phraseArray (translate_effect q) = rest
               /\ selectedLanguage (translate_effect q) = selectedLanguage p
               /\ translatedArray (translate_effect q) = translatedArray q
               /\ List.map f_phrase (fetches (translate_effect q))
                  = List.map f_phrase (fetches p) ++ take 1 rest
               /\ match rest with
                  | [] => isTranslatingRef (translate_effect q) = false
                  | _ :: _ => awaiting_head (translate_effect q)
                  end).
  { destruct rest as [|y rest'].
    - rewrite (translate_effect_nil q Hq1).
      split; [done|]. split; [done|]. split; [done|]. split; [|done].
      rewrite Hq4, Hf, !List.map_app. cbn. by rewrite app_nil_r.
    - rewrite (translate_effect_idle q y rest' Hq1 Hq2).
      cbn [set_fetches set_isTranslatingRef selectedLanguage fetches isTranslatingRef
             phraseArray translatedArray].
      split; [done|]. split; [done|]. split; [done|]. split.
      + rewrite Hq4, Hf, !List.map_app. cbn. by rewrite take_0.
      + exists y, rest',
          (fs ++ [{| f_lang := selectedLanguage p; f_phrase := x; f_pending := false |}]).
        cbn [set_fetches set_isTranslatingRef selectedLanguage fetches isTranslatingRef
               phraseArray].
        by rewrite Hq1, Hq4. }
  destruct Ht as (Ht1 & Ht2 & Ht3 & Ht4 & Ht5).
  unfold translate_rerender.
  destruct (try_translate v r) as [t|] eqn:Hr; [|by rewrite <- Hq5, <- Ht3].
  destruct (speak_effect_translate_side (translate_effect q)) as (E1 & E2 & E3 & E4 & _).
  rewrite E3, E4, E1, speak_effect_selectedLanguage, Ht3.
  repeat split; try done.
  destruct rest; [by rewrite E2|].
  destruct Ht5 as (y & rest' & fs' & Ha & Hb & Hc).
  exists y, rest', fs'. by rewrite E3, E2, E1, speak_effect_selectedLanguage.
Qed.

Lemma settle_in_turn_prefix (v : Variant) (rs : list Response) (p : Pipeline) :
  awaiting_head p ->
  length rs <= length (phraseArray p) ->
  exists p',
    settle_in_turn v rs p = Some p'
    /\ phraseArray p' = drop (length rs) (phraseArray p)
    /\ translatedArray p' = translatedArray p ++ omap (try_translate v) rs
    /\ List.map f_phrase (fetches p')
       = List.map f_phrase (fetches p) ++ take (length rs) (drop 1 (phraseArray p))
    /\ match drop (length rs) (phraseArray p) with
       | [] => isTranslatingRef p' = false
       | _ :: _ => awaiting_head p'
       end.
Proof.
  revert p. induction rs as [|r rs IH]; intros p Ha Hlen.
  - exists p. cbn. rewrite !app_nil_r. repeat split.
    destruct Ha as (x & rest & fs & Hp & Hl & Hf). rewrite Hp.
    by exists x, rest, fs.
  - destruct Ha as (x & rest & fs & Hp & Hl & Hf).
    destruct (settle_head v r p x rest fs Hp Hl Hf)
      as (p1 & Hstep & Hp1 & _ & Ht1 & Hf1 & Hn1).
    cbn [settle_in_turn]. rewrite Hstep.
    assert (Hlen' : length rs <= length rest).
    { rewrite Hp in Hlen. simpl in Hlen. lia. }
    rewrite Hp. clear Hlen.
    destruct rest as [|y rest'].
    + destruct rs; [|simpl in Hlen'; lia]. exists p1. cbn.
      rewrite Ht1, Hf1, Hp1. cbn. destruct (try_translate v r); by rewrite ?app_nil_r.
    + destruct (IH p1 Hn1) as (p' & Hrun & Hp' & Ht' & Hf' & Hn');
        [by rewrite Hp1|].
      exists p'. rewrite Hp1 in Hp', Hf', Hn'. cbn [length drop].
      split; [exact Hrun|]. split; [exact Hp'|]. split.
      { rewrite Ht', Ht1. rewrite <- app_assoc. f_equal.
        change (r :: rs) with ([r] ++ rs). rewrite omap_app. f_equal. }
      split; [|exact Hn'].
      rewrite Hf', Hf1. rewrite <- app_assoc. f_equal.
Qed.

(** With the translation stage awaiting its head phrase, let one response
    arrive for each queued phrase: every phrase is sent to the provider once,
    in queue order; the successful translations join the translated queue in
    that order (a failed one is skipped); the phrase queue ends empty with
    the lock released. *)
Theorem translations_settle_in_order (v : Variant) (rs : list Response) (p : Pipeline) :
  awaiting_head p ->
  length rs = length (phraseArray p) ->
  exists p',
    settle_in_turn v rs p = Some p'
    /\ phraseArray p' = []
    /\ isTranslatingRef p' = false
    /\ translatedArray p' = translatedArray p ++ omap (try_translate v) rs
    /\ List.map f_phrase (fetches p')
       = List.map f_phrase (fetches p) ++ drop 1 (phraseArray p).
Proof.
  intros Ha Hlen.
  destruct (settle_in_turn_prefix v rs p Ha) as (p' & Hrun & Hp & Ht & Hf & Hn); [lia|].
  rewrite Hlen, drop_all in Hp, Hn. exists p'.
  repeat split; try done.
  rewrite Hf, Hlen. f_equal. apply take_ge. rewrite length_drop. lia.
Qed.

Lemma translations_settle_in_order_witness :
  awaiting_head two_phrases_queued
  /\ exists p',
      settle_in_turn DefaultView [Http false None; google_ok "T2"] two_phrases_queued
        = Some p'
      /\ phraseArray p' = []
      /\ translatedArray p' = translatedArray two_phrases_queued ++ [VJson (JStr "T2")].
Proof.
  assert (Ha : awaiting_head two_phrases_queued).
  { by exists "a1 a2 a3 a4 a5 a6 a7 a8 a9 a10", ["b1 b2 b3 b4 b5 b6 b7 b8 b9 b10"], []. }
  split; [exact Ha|].
  destruct (translations_settle_in_order DefaultView [Http false None; google_ok "T2"]
              two_phrases_queued Ha eq_refl) as (p' & Hrun & Hp & _ & Ht & _).
  exists p'. split; [exact Hrun|]. split; [exact Hp | exact Ht].
Defined.

End InOrder.

Section PlaybackInOrder.

Lemma speak_effect_nil (q : Pipeline) :
  translatedArray q = [] -> speak_effect q = q.
Proof. intros H. unfold speak_effect. by rewrite H. Qed.

Lemma speak_effect_idle (q : Pipeline) (y : value) (rest : list value) :
  translatedArray q = y :: rest -> isSpeakingRef q = false ->
  speak_effect q
  = set_utterances
      (utterances q ++ [{| u_text := y; u_timer := true; u_live := true |}])
      (set_isSpeakingRef true (set_currentTranslation y q)).
Proof. intros H L. unfold speak_effect. by rewrite H, L. Qed.

Lemma alter_at_length {A} (g : A -> A) (l : list A) (x : A) :
  alter g (length l) (l ++ [x]) = l ++ [g x].
Proof. induction l as [|a l IH]; [done|]. simpl. f_equal. exact IH. Qed.

Lemma last_index_snoc {A} (l : list A) (x : A) : length (l ++ [x]) - 1 = length l.
Proof. rewrite length_app. simpl. lia. Qed.

Lemma utterance_texts_snoc (p : Pipeline) (us : list Utterance) (u : Utterance) :
  utterances p = us ++ [u] ->
  utterance_texts p = List.map u_text us ++ [u_text u].
Proof. intros H. unfold utterance_texts. by rewrite H, List.map_app. Qed.

(** One playback coming to its end, with the stage awaiting the head
    translation. *)
Lemma complete_head (v : Variant) (c : Completion) (p : Pipeline)
    (x : value) (rest : list value) (us : list Utterance) :
  translatedArray p = x :: rest ->
  isSpeakingRef p = true ->
  utterances p = us ++ [{| u_text := x; u_timer := true; u_live := true |}] ->
  exists p',
    pipe_step v (completion_event c (length (utterances p) - 1)) p = Some p'
    /\ translatedArray p' = rest
    /\ phraseArray p' = phraseArray p
    /\ utterance_texts p' = utterance_texts p ++ take 1 rest
    /\ currentTranslation p' = List.last (take 1 rest) (currentTranslation p)
    /\ match rest with
       | [] => isSpeakingRef p' = false
       | _ :: _ => speaking_head p'
       end.
Proof.
  intros Hp Hl Hu.
  assert (Hq : exists q u',
             pipe_step v (completion_event c (length (utterances p) - 1)) p
             = Some (speak_effect q)
             /\ translatedArray q = rest /\ isSpeakingRef q = false
             /\ phraseArray q = phraseArray p
             /\ currentTranslation q = currentTranslation p
             /\ utterances q = us ++ [u'] /\ u_text u' = x).
  { destruct c; cbn [completion_event pipe_step];
      rewrite Hu, lookup_last_snoc, last_index_snoc; cbn [u_timer u_live].
    - eexists _, _. split; [reflexivity|].
      cbn [on_utterance_signal signal_done clear_timer set_utterances set_isSpeakingRef
             set_translatedArray utterances translatedArray isSpeakingRef phraseArray
             currentTranslation].
      rewrite Hp, Hu, !alter_at_length. repeat split.
    - eexists _, _. split; [reflexivity|].
      cbn [on_utterance_signal signal_done clear_timer set_utterances set_isSpeakingRef
             set_translatedArray utterances translatedArray isSpeakingRef phraseArray
             currentTranslation].
      rewrite Hp, Hu, !alter_at_length. repeat split.
    - eexists _, _. split; [reflexivity|].
      cbn [on_safety_timeout clear_timer set_utterances set_isSpeakingRef
             set_translatedArray utterances translatedArray isSpeakingRef phraseArray
             currentTranslation].
      rewrite Hp, Hu, !alter_at_length. repeat split. }
  destruct Hq as (q & u' & Hstep & Hq1 & Hq2 & Hq3 & Hq4 & Hq5 & Hq6).
  exists (speak_effect q). split; [exact Hstep|].
  rewrite (utterance_texts_snoc p _ _ Hu). cbn [u_text].
  destruct rest as [|y rest'].
  - rewrite (speak_effect_nil q Hq1). rewrite (utterance_texts_snoc q _ _ Hq5), Hq6.
    cbn. by rewrite app_nil_r.
  - rewrite (speak_effect_idle q y rest' Hq1 Hq2).
    cbn [set_utterances set_isSpeakingRef set_currentTranslation utterances
           translatedArray phraseArray currentTranslation isSpeakingRef].
    split; [done|]. split; [done|]. split.
    { unfold utterance_texts. cbn [set_utterances utterances].
      rewrite Hq5, !List.map_app. cbn [List.map]. rewrite Hq6. cbn.
      by rewrite take_0. }
    split; [by cbn; rewrite take_0|].
    exists y, rest', (us ++ [u']).
    cbn [set_utterances set_isSpeakingRef set_currentTranslation utterances
           translatedArray isSpeakingRef].
    by rewrite Hq1, Hq5.
Qed.

Lemma last_nonempty_default {A} (a : A) (l : list A) (d d' : A) :
  List.last (a :: l) d = List.last (a :: l) d'.
Proof.
  revert a. induction l as [|b l IH]; intros a; [done|].
  change (List.last (b :: l) d = List.last (b :: l) d'). apply IH.
Qed.

Lemma last_cons_default {A} (y : A) (l : list A) (d : A) :
  List.last (y :: l) d = List.last l y.
Proof.
  destruct l as [|a l]; [done|].
  change (List.last (a :: l) d = List.last (a :: l) y). apply last_nonempty_default.
Qed.

Lemma complete_in_turn_prefix (v : Variant) (cs : list Completion) (p : Pipeline) :
  speaking_head p ->
  length cs <= length (translatedArray p) ->
  exists p',
    complete_in_turn v cs p = Some p'
    /\ translatedArray p' = drop (length cs) (translatedArray p)
    /\ phraseArray p' = phraseArray p
    /\ utterance_texts p'
       = utterance_texts p ++ take (length cs) (drop 1 (translatedArray p))
    /\ currentTranslation p'
       = List.last (take (length cs) (drop 1 (translatedArray p))) (currentTranslation p)
    /\ match drop (length cs) (translatedArray p) with
       | [] => isSpeakingRef p' = false
       | _ :: _ => speaking_head p'
       end.
Proof.
  revert p. induction cs as [|c cs IH]; intros p Ha Hlen.
  - exists p. cbn. rewrite !app_nil_r. repeat split.
    destruct Ha as (x & rest & us & Hp & Hl & Hu). rewrite Hp.
    by exists x, rest, us.
  - destruct Ha as (x & rest & us & Hp & Hl & Hu).
    destruct (complete_head v c p x rest us Hp Hl Hu)
      as (p1 & Hstep & Hp1 & Hph1 & Hu1 & Hc1 & Hn1).
    cbn [complete_in_turn]. rewrite Hstep.
    assert (Hlen' : length cs <= length rest).
    { rewrite Hp in Hlen. simpl in Hlen. lia. }
    rewrite Hp. clear Hlen.
    destruct rest as [|y rest'].
    + destruct cs; [|simpl in Hlen'; lia]. exists p1. cbn.
      cbn in Hu1, Hc1. by rewrite Hp1, Hph1, Hu1, Hc1.
    + destruct (IH p1 Hn1) as (p' & Hrun & Hp' & Hph' & Hu' & Hc' & Hn');
        [by rewrite Hp1|].
      exists p'. rewrite Hp1 in Hp', Hu', Hc', Hn'. cbn [length drop].
      split; [exact Hrun|]. split; [exact Hp'|]. split; [by rewrite Hph'|].
      split; [|split; [|exact Hn']].
      * rewrite Hu', Hu1. rewrite <- app_assoc. f_equal.
      * rewrite Hc', Hc1. cbn [drop take]. rewrite drop_0, take_0.
        cbn [List.last]. symmetry. apply last_cons_default.
Qed.

(** With the playback stage awaiting its head translation, let one
    completion (end, error or safety timeout, in any mix) arrive for each
    queued translation: every translation is handed to the speech engine
    once, in queue order; the queue ends empty with the lock released, and
    the display shows the translation spoken last. *)
Theorem playbacks_complete_in_order (v : Variant) (cs : list Completion) (p : Pipeline) :
  speaking_head p ->
  length cs = length (translatedArray p) ->
  exists p',
    complete_in_turn v cs p = Some p'
    /\ translatedArray p' = []
    /\ isSpeakingRef p' = false
    /\ utterance_texts p' = utterance_texts p ++ drop 1 (translatedArray p)
    /\ currentTranslation p'
       = List.last (drop 1 (translatedArray p)) (currentTranslation p)
    /\ phraseArray p' = phraseArray p.
Proof.
  intros Ha Hlen.
  destruct (complete_in_turn_prefix v cs p Ha) as (p' & Hrun & Hp & Hph & Hu & Hc & Hn);
    [lia|].
  rewrite Hlen, drop_all in Hp, Hn. exists p'.
  assert (E : take (length cs) (drop 1 (translatedArray p)) = drop 1 (translatedArray p)).
  { apply take_ge. rewrite length_drop. lia. }
  rewrite E in Hu, Hc. by repeat split.
Qed.

End PlaybackInOrder.

Section StagesMore.

Lemma playbacks_complete_in_order_witness :
  speaking_head three_to_speak
  /\ exists p',
      complete_in_turn DefaultView [TimedOut; Ended; Errored] three_to_speak = Some p'
      /\ translatedArray p' = []
      /\ utterance_texts p'
         = utterance_texts three_to_speak ++ drop 1 (translatedArray three_to_speak).
Proof.
  assert (Ha : speaking_head three_to_speak).
  { by exists (VJson (JStr "T1")), [VJson (JStr "T2"); VJson (JStr "T3")], []. }
  split; [exact Ha|].
  destruct (playbacks_complete_in_order DefaultView [TimedOut; Ended; Errored]
              three_to_speak Ha eq_refl) as (p' & Hrun & Hp & _ & Hu & _).
  exists p'. split; [exact Hrun|]. split; [exact Hp | exact Hu].
Defined.

Lemma slice_last_length {A} (k : nat) (l : list A) : length (slice_last k l) <= k.
Proof. unfold slice_last. rewrite length_drop. lia. Qed.

Lemma pipe_step_recent (v : Variant) (e : PipeEvent) (p p' : Pipeline) :
  pipe_step v e p = Some p' ->
  recentTranslations p' =
    match e with
    | FetchSettled _ r =>
        match try_translate v r with
        | Some t => slice_last 3 (recentTranslations p ++ [t])
        | None => recentTranslations p
        end
    | _ => recentTranslations p
    end.
Proof.
  intros Hstep. destruct e as [i r|i|i|i]; simpl in Hstep.
  - destruct (fetches p !! i) as [f|]; [|done]. destruct (f_pending f); [|done].
    injection Hstep as <-. unfold translate_rerender.
    set (q := translate_settled v r (settle_fetch i p)).
    assert (Hq : recentTranslations q =
                   match try_translate v r with
                   | Some t => slice_last 3 (recentTranslations p ++ [t])
                   | None => recentTranslations p
                   end).
    { unfold q, translate_settled. by destruct (try_translate v r). }
    destruct (translate_effect_speak_side q) as (_ & _ & _ & E).
    destruct (try_translate v r).
    + destruct (speak_effect_translate_side (translate_effect q)) as (_ & _ & _ & _ & E').
      by rewrite E', E.
    + by rewrite E.
  - destruct (utterances p !! i) as [u|]; [|done]. destruct (u_timer u); [|done].
    injection Hstep as <-.
    by destruct (speak_effect_translate_side (on_safety_timeout i p)) as (_ & _ & _ & _ & ->).
  - destruct (utterances p !! i) as [u|]; [|done]. destruct (u_live u); [|done].
    injection Hstep as <-.
    by destruct (speak_effect_translate_side (on_utterance_signal i p))
      as (_ & _ & _ & _ & ->).
  - destruct (utterances p !! i) as [u|]; [|done]. destruct (u_live u); [|done].
    injection Hstep as <-.
    by destruct (speak_effect_translate_side (on_utterance_signal i p))
      as (_ & _ & _ & _ & ->).
Qed.

Lemma slice_last_snoc_last {A} (k : nat) (l : list A) (x d : A) :
  0 < k -> List.last (slice_last k (l ++ [x])) d = x.
Proof.
  intros Hk. unfold slice_last. rewrite length_app. simpl.
  destruct (decide (length l + 1 - k <= length l)) as [H|H]; [|lia].
  rewrite drop_app_le by lia. apply List.last_last.
Qed.

(** The recent translations are a window on the three newest successful
    translations: a successful translation enters at the end and pushes out
    whatever lies more than three back; nothing else that happens in the
    stages changes the window. *)
Theorem recent_translations_window (v : Variant) (e : PipeEvent) (p p' : Pipeline) :
  pipe_step v e p = Some p' ->
  match e with
  | FetchSettled _ r =>
      match try_translate v r with
      | Some t =>
          recentTranslations p' = slice_last 3 (recentTranslations p ++ [t])
          /\ length (recentTranslations p') <= 3
          /\ List.last (recentTranslations p') (VJson JNull) = t
          /\ recentTranslations p' `suffix_of` (recentTranslations p ++ [t])
      | None => recentTranslations p' = recentTranslations p
      end
  | _ => recentTranslations p' = recentTranslations p
  end.
Proof.
  intros Hstep. pose proof (pipe_step_recent v e p p' Hstep) as H.
  destruct e as [i r|i|i|i]; try done.
  destruct (try_translate v r) as [t|]; [|done].
  rewrite H. split; [done|]. split; [apply slice_last_length|].
  split; [apply slice_last_snoc_last; lia|].
  unfold slice_last. apply suffix_drop.
Qed.

Lemma recent_translations_window_witness :
  match pipe_step DefaultView (FetchSettled 0 (google_ok "T1")) two_phrases_queued with
  | Some p' =>
      recentTranslations p' = [VJson (JStr "T1")]
      /\ length (recentTranslations p') <= 3
  | None => False
  end.
Proof.
  destruct (pipe_step DefaultView (FetchSettled 0 (google_ok "T1")) two_phrases_queued)
    as [p'|] eqn:E; [|vm_compute in E; discriminate E].
  pose proof (recent_translations_window _ _ _ _ E) as (H1 & H2 & _).
  split; [exact H1 | exact H2].
Defined.

(** Start does not cancel a translation in flight, it only releases the
    lock: when that translation settles after Start, its text enters the
    translated queue of the new session and is handed to the speech engine. *)
Theorem default_start_keeps_fetch_in_flight
    (s : Default.App) (i : nat) (f : Fetch) (r : Response) (t : value) :
  fetches (Default.pipe s) !! i = Some f ->
  f_pending f = true ->
  try_translate DefaultView r = Some t ->
  exists s',
    Default.step (Default.Pipe (FetchSettled i r)) (Default.start s) = Some s'
    /\ phraseArray (Default.pipe s') = []
    /\ translatedArray (Default.pipe s') = [t]
    /\ recentTranslations (Default.pipe s') = [t]
    /\ currentTranslation (Default.pipe s') = t
    /\ isSpeakingRef (Default.pipe s') = true
    /\ utterance_texts (Default.pipe s') = utterance_texts (Default.pipe s) ++ [t].
Proof.
  intros Hi Hf Hr. eexists. split.
  { cbn [Default.step pipe_step Default.start Default.pipe set_isSpeakingRef
           set_isTranslatingRef set_recentTranslations set_currentTranslation
           set_translatedArray set_phraseArray fetches].
    rewrite Hi, Hf. reflexivity. }
  cbn [Default.pipe Default.set_pipe]. unfold translate_rerender, translate_settled.
  rewrite Hr. unfold utterance_texts. cbn. by rewrite List.map_app.
Qed.

Lemma default_start_keeps_fetch_in_flight_witness :
  fetches two_phrases_queued !! 0
  = Some {| f_lang := "lv"; f_phrase := "a1 a2 a3 a4 a5 a6 a7 a8 a9 a10"; f_pending := true |}
  /\ exists s',
      Default.step (Default.Pipe (FetchSettled 0 (google_ok "T1")))
        (Default.start (Default.set_pipe two_phrases_queued default_started)) = Some s'
      /\ translatedArray (Default.pipe s') = [VJson (JStr "T1")].
Proof.
  assert (H : fetches (Default.pipe (Default.set_pipe two_phrases_queued default_started))
              !! 0
              = Some {| f_lang := "lv"; f_phrase := "a1 a2 a3 a4 a5 a6 a7 a8 a9 a10";
                        f_pending := true |}) by reflexivity.
  split; [exact H|].
  destruct (default_start_keeps_fetch_in_flight _ 0 _ (google_ok "T1") (VJson (JStr "T1"))
              H eq_refl eq_refl) as (s' & Hs & _ & Ht & _).
  exists s'. split; [exact Hs | exact Ht].
Defined.

End StagesMore.

(** ** Payloads *)

Section Payloads.

Lemma map_index0_segments (segs : list (string * list json)) :
  map_index0 (List.map (fun seg => JArr (JStr (fst seg) :: snd seg)) segs)
  = Some (List.map (fun seg => VJson (JStr (fst seg))) segs).
Proof.
  induction segs as [|seg segs IH]; [done|]. cbn [List.map map_index0 index0].
  by rewrite IH.
Qed.

(** Of a response made of segments the iPhone view takes the texts of all
    segments, joined without a separator, while the default view takes the
    text of the first segment only; with no segment at all the iPhone view
    gets the empty translation and the default view fails. *)
Theorem views_read_segments_differently
    (segs : list (string * list json)) (rest : list json) :
  extract_iphone (google_payload segs rest)
  = Some (VJson (JStr (join_with EmptyString (List.map fst segs))))
  /\ extract_default (google_payload segs rest)
     = match segs with
       | [] => None
       | seg :: _ => Some (VJson (JStr (fst seg)))
       end.
Proof.
  split.
  - unfold extract_iphone, google_payload. cbn [index0].
    rewrite map_index0_segments, List.map_map. reflexivity.
  - by destruct segs.
Qed.

(** A body without an element 0 (null, a number, a boolean, an empty array
    or string, an object without key "0") is a failure in both views. *)
Theorem body_without_first_element_fails (v : Variant) (data : json) :
  index0 (VJson data) = None \/ index0 (VJson data) = Some VUndefined ->
  try_translate v (Http true (Some data)) = None
  /\ translation_failure v (Http true (Some data)).
Proof.
  intros H.
  assert (E : try_translate v (Http true (Some data)) = None).
  { cbn [try_translate]. unfold extract_default, extract_iphone.
    destruct H as [-> | ->]; by destruct v. }
  split; [exact E|]. by apply translation_failure_iff.
Qed.

Lemma body_without_first_element_fails_witness :
  try_translate DefaultView (Http true (Some (JObj [("1", JStr "x")]))) = None
  /\ try_translate IphoneView (Http true (Some (JArr []))) = None.
Proof.
  split.
  - exact (proj1 (body_without_first_element_fails DefaultView (JObj [("1", JStr "x")])
                    (or_intror eq_refl))).
  - exact (proj1 (body_without_first_element_fails IphoneView (JArr [])
                    (or_intror eq_refl))).
Defined.

End Payloads.

(** ** Token, password and start of the iPhone view *)

Section Credentials.

(** [getToken] takes a token from exactly those responses that are ok and
    whose body is an object with a truthy [token]. *)
Theorem token_accepted_iff (r : Iphone.TokenResponse) (tok : json) :
  Iphone.token_of_response r = inr tok
  <-> exists statusText l,
        r = Iphone.TokenHttp true statusText (Some (JObj l))
        /\ obj_get "token" l = Some tok
        /\ Iphone.js_truthy tok = true.
Proof.
  split.
  - destruct r as [|[] st [data|]]; try done. cbn [Iphone.token_of_response].
    destruct data as [| | | |l|l]; try done. cbn [Iphone.token_field].
    destruct (obj_get "token" l) as [j|] eqn:E; [|done].
    destruct (Iphone.js_truthy j) eqn:Hj; [|done].
    intros [= <-]. by exists st, l.
  - intros (st & l & -> & Hg & Ht). cbn. by rewrite Hg, Ht.
Qed.

(** [getToken] with an empty password rejects at once: no request goes out
    and the state is untouched.  Otherwise one fetch goes out, loading is
    over when the call returns, and either the token is stored with the
    error cleared, or the error is recorded and the token kept as it was. *)
Theorem getToken_outcomes (pw : string) (r : Iphone.TokenResponse) (t : Iphone.App) :
  let t' := fst (Iphone.getToken pw r t) in
  if truthy pw then
    Iphone.requests t' = Iphone.requests t ++ [Iphone.TokenFetch pw]
    /\ Iphone.isLoading t' = false
    /\ snd (Iphone.getToken pw r t) = Iphone.token_of_response r
    /\ match Iphone.token_of_response r with
       | inr tok => Iphone.token t' = Some tok /\ Iphone.error t' = None
       | inl e => Iphone.token t' = Iphone.token t /\ Iphone.error t' = Some e
       end
  else
    Iphone.getToken pw r t = (t, inl Iphone.PasswordRequired).
Proof.
  unfold Iphone.getToken. destruct (truthy pw); cbn [negb]; [|done].
  by destruct (Iphone.token_of_response r).
Qed.

(** Submitting a blank password sends nothing and only reports 'Please
    enter a password'.  A submission whose token fetch is refused stores
    nothing, leaves password and input as they were and reports the failure;
    one that gets a token sets the password and clears the report.  Whenever
    a fetch was made, the form is no longer authenticating afterwards. *)
Theorem password_submit_outcomes (r : Iphone.TokenResponse) (t : Iphone.App) :
  let t' := Iphone.handlePasswordSubmit r t in
  if truthy (trim (Iphone.passwordInput t)) then
    Iphone.isAuthenticating t' = false
    /\ Iphone.requests t'
       = Iphone.requests t ++ [Iphone.TokenFetch (Iphone.passwordInput t)]
    /\ match Iphone.token_of_response r with
       | inl e =>
           Iphone.localStorage t' = Iphone.localStorage t
           /\ Iphone.password t' = Iphone.password t
           /\ Iphone.passwordInput t' = Iphone.passwordInput t
           /\ Iphone.authError t' = Some (Iphone.AuthFailed e)
       | inr tok =>
           Iphone.password t' = Iphone.passwordInput t
           /\ Iphone.passwordInput t' = EmptyString
           /\ Iphone.authError t' = None
       end
  else
    t' = Iphone.set_authError (Some Iphone.PleaseEnterPassword) t.
Proof.
  unfold Iphone.handlePasswordSubmit.
  destruct (truthy (trim (Iphone.passwordInput t))) eqn:Hin; cbn [negb]; [|done].
  pose proof (truthy_trim _ Hin) as Hpw.
  unfold Iphone.getToken.
  cbn [Iphone.set_authError Iphone.set_isAuthenticating Iphone.passwordInput].
  rewrite Hpw. cbn [negb].
  by destruct (Iphone.token_of_response r).
Qed.

(** Logout removes the stored password and forgets password and token, so a
    reload after it shows the password form with no token. *)
Theorem logout_forgets_credentials (t : Iphone.App) :
  let t' := Iphone.handleLogout t in
  Iphone.localStorage t' !! Iphone.PASSWORD_STORAGE_KEY = None
  /\ Iphone.localStorage t' = delete Iphone.PASSWORD_STORAGE_KEY (Iphone.localStorage t)
  /\ Iphone.password t' = EmptyString
  /\ Iphone.token t' = None
  /\ Iphone.error t' = None
  /\ Iphone.password (Iphone.mount (Iphone.localStorage t')) = EmptyString
  /\ Iphone.step (Iphone.StartStop (token_ok "t") true) t' = None
  /\ Iphone.step (Iphone.StartStop (token_ok "t") true)
       (Iphone.mount (Iphone.localStorage t')) = None.
Proof.
  cbn. rewrite lookup_delete_eq. repeat split.
Qed.

(** A Start whose token fetch is refused does not connect: the queues are
    cleared and the locks released as for any Start, the fetch is the only
    call to the outside, the failure is recorded and alerted, and the view
    stays disconnected.  A Start without a password only alerts. *)
Theorem start_without_token_does_not_connect
    (r : Iphone.TokenResponse) (e : Iphone.TokenError) (c : bool) (t : Iphone.App) :
  Iphone.isConnected t = false ->
  Iphone.token_of_response r = inl e ->
  let t' := Iphone.handleStartStop r c t in
  Iphone.isConnected t' = false
  /\ List.filter is_connect (Iphone.requests t')
     = List.filter is_connect (Iphone.requests t)
  /\ if truthy (Iphone.password t) then
       Iphone.requests t'
       = Iphone.requests t
           ++ [Iphone.PrimeUtterance; Iphone.TokenFetch (Iphone.password t);
               Iphone.Alert (Iphone.TokenFailed e)]
       /\ Iphone.error t' = Some e
       /\ phraseArray (Iphone.pipe t') = []
       /\ translatedArray (Iphone.pipe t') = []
     else
       t' = Iphone.send (Iphone.Alert Iphone.PasswordNotAvailable) t.
Proof.
  intros Hc Hr. unfold Iphone.handleStartStop. rewrite Hc.
  unfold Iphone.start, Iphone.getToken.
  destruct (truthy (Iphone.password t)) eqn:Hpw; cbn [negb].
  - cbn [Iphone.send Iphone.set_pipe Iphone.password]. rewrite Hpw, Hr. cbn.
    rewrite Hc. rewrite <- !app_assoc. cbn. split; [done|]. split; [|done].
    rewrite List.filter_app. cbn. by rewrite app_nil_r.
  - cbn. rewrite Hc. split; [done|]. split; [|done].
    rewrite List.filter_app. cbn. by rewrite app_nil_r.
Qed.

Lemma start_without_token_does_not_connect_witness :
  Iphone.isConnected iphone_mounted = false
  /\ Iphone.token_of_response (Iphone.TokenHttp false "Unauthorized" None)
     = inl (Iphone.NotOk "Unauthorized")
  /\ Iphone.isConnected
       (Iphone.handleStartStop (Iphone.TokenHttp false "Unauthorized" None) true
          iphone_mounted) = false.
Proof.
  assert (H1 : Iphone.isConnected iphone_mounted = false) by reflexivity.
  assert (H2 : Iphone.token_of_response (Iphone.TokenHttp false "Unauthorized" None)
               = inl (Iphone.NotOk "Unauthorized")) by reflexivity.
  split; [exact H1|]. split; [exact H2|].
  exact (proj1 (start_without_token_does_not_connect _ _ true iphone_mounted H1 H2)).
Defined.

Lemma token_effects_cons (r : Iphone.TokenResponse) (rs : list Iphone.TokenResponse)
    (t : Iphone.App) :
  token_effects (r :: rs) t = token_effects rs (Iphone.token_effect r t).
Proof. reflexivity. Qed.

Lemma iphone_getToken_cases (pw : string) (r : Iphone.TokenResponse) (t : Iphone.App) :
  truthy pw = true ->
  Iphone.requests (fst (Iphone.getToken pw r t))
  = Iphone.requests t ++ [Iphone.TokenFetch pw]
  /\ Iphone.isLoading (fst (Iphone.getToken pw r t)) = false
  /\ match Iphone.token_of_response r with
     | inr tok => Iphone.token (fst (Iphone.getToken pw r t)) = Some tok
     | inl e => Iphone.token (fst (Iphone.getToken pw r t)) = Iphone.token t
     end.
Proof.
  intros H. unfold Iphone.getToken. rewrite H. cbn [negb].
  by destruct (Iphone.token_of_response r).
Qed.

Lemma token_effect_fires (r : Iphone.TokenResponse) (t : Iphone.App) :
  truthy (Iphone.password t) = true ->
  Iphone.token t = None ->
  Iphone.isLoading t = false ->
  Iphone.token_effect r t = fst (Iphone.getToken (Iphone.password t) r t).
Proof. intros Hpw Htok Hl. unfold Iphone.token_effect. by rewrite Hpw, Htok, Hl. Qed.

Lemma token_effect_idle (r : Iphone.TokenResponse) (t : Iphone.App) (tok : json) :
  Iphone.token t = Some tok -> Iphone.token_effect r t = t.
Proof.
  intros Htok. unfold Iphone.token_effect. rewrite Htok.
  by destruct (truthy (Iphone.password t)).
Qed.

(** With a password and no token the token effect fetches one; as long as
    the fetch is refused the effect finds its condition true again and
    fetches again, once per refusal, without limit.  The first token that
    arrives is kept, and from then on the effect does nothing, whatever a
    response would be. *)
Theorem token_effect_retries_until_token
    (rs : list Iphone.TokenResponse) (r : Iphone.TokenResponse) (tok : json)
    (t : Iphone.App) :
  truthy (Iphone.password t) = true ->
  Iphone.token t = None ->
  Iphone.isLoading t = false ->
  Forall token_refused rs ->
  Iphone.token_of_response r = inr tok ->
  token_fetches (token_effects rs t) = token_fetches t + length rs
  /\ Iphone.token (token_effects rs t) = None
  /\ Iphone.isLoading (token_effects rs t) = false
  /\ Iphone.token (Iphone.token_effect r (token_effects rs t)) = Some tok
  /\ token_fetches (Iphone.token_effect r (token_effects rs t))
     = token_fetches t + length rs + 1
  /\ forall r', Iphone.token_effect r' (Iphone.token_effect r (token_effects rs t))
                = Iphone.token_effect r (token_effects rs t).
Proof.
  intros Hpw Htok Hl Hrs Hr. revert t Hpw Htok Hl.
  induction Hrs as [|r0 rs [e Hr0] _ IH]; intros t Hpw Htok Hl.
  - cbn [token_effects fold_left length]. rewrite Nat.add_0_r.
    split; [done|]. split; [done|]. split; [done|].
    rewrite (token_effect_fires r t Hpw Htok Hl).
    pose proof (iphone_getToken_cases (Iphone.password t) r t Hpw) as Ho.
    rewrite Hr in Ho. destruct Ho as (Hq & _ & Ht).
    split; [exact Ht|]. split; [by rewrite (token_fetches_app t _ _ Hq)|].
    intros r'. by apply (token_effect_idle r' _ tok).
  - rewrite token_effects_cons.
    set (t1 := Iphone.token_effect r0 t).
    assert (H1 : truthy (Iphone.password t1) = true /\ Iphone.token t1 = None
                 /\ Iphone.isLoading t1 = false
                 /\ token_fetches t1 = token_fetches t + 1).
    { unfold t1. rewrite (token_effect_fires r0 t Hpw Htok Hl).
      pose proof (iphone_getToken_cases (Iphone.password t) r0 t Hpw) as Ho.
      rewrite Hr0 in Ho. destruct Ho as (Hq & Hld & Ht).
      destruct (iphone_getToken_storage (Iphone.password t) r0 t) as (_ & Hp & _).
      rewrite Hp, Ht. repeat split; try done.
      rewrite (token_fetches_app t _ _ Hq). done. }
    destruct H1 as (Hpw1 & Htok1 & Hl1 & Hn1).
    destruct (IH t1 Hpw1 Htok1 Hl1) as (Hn & Ht & Hld & Hk & Hm & Hs).
    split; [rewrite Hn, Hn1; cbn [length]; lia|].
    split; [done|]. split; [done|]. split; [done|].
    split; [rewrite Hm, Hn1; cbn [length]; lia | done].
Qed.

Lemma token_effect_retries_until_token_witness :
  token_fetches
    (token_effects [Iphone.TokenFetchRejected; Iphone.TokenHttp false "Unauthorized" None]
       (Iphone.mount {[ Iphone.PASSWORD_STORAGE_KEY := "secret" ]}))
  = 2.
Proof.
  assert (Hr : Forall token_refused
                 [Iphone.TokenFetchRejected; Iphone.TokenHttp false "Unauthorized" None]).
  { constructor; [by eexists|]. constructor; [by eexists | constructor]. }
  exact (proj1 (token_effect_retries_until_token _ (token_ok "t0") (JStr "t0")
                  (Iphone.mount {[ Iphone.PASSWORD_STORAGE_KEY := "secret" ]})
                  eq_refl eq_refl eq_refl Hr eq_refl)).
Defined.

End Credentials.

(** ** The default view never idles; counters *)

Section Invariants.

Lemma translate_effect_busy (p : Pipeline) :
  phraseArray (translate_effect p) ≠ [] -> isTranslatingRef (translate_effect p) = true.
Proof.
  unfold translate_effect. destruct (phraseArray p) eqn:E; [by rewrite E|].
  by destruct (isTranslatingRef p) eqn:L.
Qed.

Lemma speak_effect_busy (p : Pipeline) :
  translatedArray (speak_effect p) ≠ [] -> isSpeakingRef (speak_effect p) = true.
Proof.
  unfold speak_effect. destruct (translatedArray p) eqn:E; [by rewrite E|].
  by destruct (isSpeakingRef p) eqn:L.
Qed.

Lemma translate_effect_keeps_busy (p : Pipeline) :
  (translatedArray p ≠ [] -> isSpeakingRef p = true) -> busy (translate_effect p).
Proof.
  intros H. split; [apply translate_effect_busy|].
  by destruct (translate_effect_speak_side p) as (_ & -> & -> & _).
Qed.

Lemma speak_effect_keeps_busy (p : Pipeline) :
  (phraseArray p ≠ [] -> isTranslatingRef p = true) -> busy (speak_effect p).
Proof.
  intros H. split; [|apply speak_effect_busy].
  by destruct (speak_effect_translate_side p) as (_ & -> & -> & _).
Qed.

Lemma pipe_step_busy (v : Variant) (e : PipeEvent) (p p' : Pipeline) :
  pipe_step v e p = Some p' -> busy p -> busy p'.
Proof.
  intros Hstep [Ht Hs]. destruct e as [i r|i|i|i]; simpl in Hstep.
  - destruct (fetches p !! i) as [f|]; [|done]. destruct (f_pending f); [|done].
    injection Hstep as <-. unfold translate_rerender.
    set (q := translate_settled v r (settle_fetch i p)).
    destruct (try_translate v r) eqn:Hr.
    + apply speak_effect_keeps_busy, translate_effect_busy.
    + apply translate_effect_keeps_busy. unfold q, translate_settled. by rewrite Hr.
  - destruct (utterances p !! i) as [u|]; [|done]. destruct (u_timer u); [|done].
    injection Hstep as <-. by apply speak_effect_keeps_busy.
  - destruct (utterances p !! i) as [u|]; [|done]. destruct (u_live u); [|done].
    injection Hstep as <-. by apply speak_effect_keeps_busy.
  - destruct (utterances p !! i) as [u|]; [|done]. destruct (u_live u); [|done].
    injection Hstep as <-. by apply speak_effect_keeps_busy.
Qed.

Lemma default_renders_busy (fuel : nat) (s : Default.App) :
  busy (Default.pipe s) -> busy (Default.pipe (Default.renders_after_wordArray fuel s)).
Proof.
  revert s. induction fuel as [|fuel IH]; intros s H;
    cbn [Default.renders_after_wordArray]; [done|].
  destruct (Default.WORDS_PER_PHRASE <=? length (Default.wordArray s)); [|done].
  apply IH. cbn -[translate_effect drop take].
  apply translate_effect_keeps_busy. by destruct H.
Qed.

Lemma default_step_busy (e : Default.Event) (s s' : Default.App) :
  Default.step e s = Some s' -> busy (Default.pipe s) -> busy (Default.pipe s').
Proof.
  intros Hstep H. destruct e as [results| |code|pe]; simpl in Hstep.
  - injection Hstep as <-. unfold Default.onresult.
    destruct (Default.collect results EmptyString EmptyString) as [it ft].
    destruct (truthy (trim ft)).
    + apply default_renders_busy. unfold Default.on_final.
      by destruct (truthy (Default.textToAdd_of s (trim ft))).
    + destruct (truthy (trim it)); [|done].
      cbn -[translate_effect]. apply translate_effect_keeps_busy.
      rewrite default_on_interim_spec. destruct (_ <=? _); by destruct H.
  - injection Hstep as <-. unfold Default.handleStartStop.
    destruct (Default.isListening s); [done|]. by split.
  - destruct (Default.isListening s); [done|]. injection Hstep as <-.
    cbn -[translate_effect]. apply translate_effect_keeps_busy. by destruct H.
  - destruct (pipe_step DefaultView pe (Default.pipe s)) as [p|] eqn:E; [|done].
    injection Hstep as <-. by eapply pipe_step_busy.
Qed.

Lemma default_run_busy (es : list Default.Event) (s s' : Default.App) :
  Default.run es s = Some s' -> busy (Default.pipe s) -> busy (Default.pipe s').
Proof.
  revert s. induction es as [|e es IH]; intros s Hrun H; simpl in Hrun.
  - by injection Hrun as <-.
  - destruct (Default.step e s) as [s1|] eqn:E; [|done].
    apply (IH s1 Hrun). by eapply default_step_busy.
Qed.

(** In every state the default view reaches, each stage holds its lock as
    long as its queue is not empty, so running either effect once more
    changes nothing. *)
Theorem default_stages_never_idle (es : list Default.Event) (s' : Default.App) :
  Default.run es Default.initial = Some s' ->
  busy (Default.pipe s')
  /\ translate_effect (Default.pipe s') = Default.pipe s'
  /\ speak_effect (Default.pipe s') = Default.pipe s'.
Proof.
  intros Hrun.
  assert (H : busy (Default.pipe s')).
  { apply (default_run_busy es _ _ Hrun). by split. }
  split; [exact H|]. destruct H as [Ht Hs]. split.
  - unfold translate_effect. destruct (phraseArray (Default.pipe s')); [done|].
    by rewrite Ht.
  - unfold speak_effect. destruct (translatedArray (Default.pipe s')); [done|].
    by rewrite Hs.
Qed.

Lemma default_stages_never_idle_witness :
  match Default.run (Default.StartStop :: three_translations) Default.initial with
  | Some s' => busy (Default.pipe s')
  | None => False
  end.
Proof.
  destruct (Default.run _ Default.initial) as [s'|] eqn:Hs;
    [|vm_compute in Hs; discriminate Hs].
  exact (proj1 (default_stages_never_idle _ _ Hs)).
Defined.

(** *** Counters *)

Lemma default_renders_refs (fuel : nat) (s : Default.App) :
  Default.processedWordCountRef (Default.renders_after_wordArray fuel s)
  = Default.processedWordCountRef s
  /\ Default.lastInterimRef (Default.renders_after_wordArray fuel s)
     = Default.lastInterimRef s.
Proof.
  revert s. induction fuel as [|fuel IH]; intros s;
    cbn [Default.renders_after_wordArray]; [done|].
  destruct (Default.WORDS_PER_PHRASE <=? length (Default.wordArray s)); [|done].
  match goal with |- context [Default.renders_after_wordArray fuel ?x] =>
    destruct (IH x) as [-> ->] end. done.
Qed.

Lemma default_step_counter (e : Default.Event) (s s' : Default.App) :
  Default.step e s = Some s' -> default_counter_ok s -> default_counter_ok s'.
Proof.
  unfold default_counter_ok.
  intros Hstep [Hd Hz]. destruct e as [results| |code|pe]; simpl in Hstep.
  - injection Hstep as <-. unfold Default.onresult.
    destruct (Default.collect results EmptyString EmptyString) as [it ft].
    destruct (truthy (trim ft)).
    + unfold Default.settle_words.
      match goal with |- context [Default.renders_after_wordArray ?n ?x] =>
        destruct (default_renders_refs n x) as [-> ->] end.
      unfold Default.on_final.
      destruct (truthy (Default.textToAdd_of s (trim ft))); cbn;
        (split; [apply Nat.divide_0_r | done]).
    + destruct (truthy (trim it)) eqn:Ht; [|done].
      rewrite default_on_interim_spec.
      destruct (_ <=? _); [|done]. cbn -[Nat.divide]. split.
      * apply Nat.divide_add_r; [exact Hd | apply Nat.divide_refl].
      * split; [unfold Default.WORDS_PER_PHRASE; lia|].
        intros E. rewrite E in Ht. done.
  - injection Hstep as <-. unfold Default.handleStartStop.
    destruct (Default.isListening s); [done|]. cbn -[Nat.divide].
    split; [apply Nat.divide_0_r | done].
  - destruct (Default.isListening s); [done|]. by injection Hstep as <-.
  - destruct (pipe_step DefaultView pe (Default.pipe s)); [|done].
    by injection Hstep as <-.
Qed.

Lemma iphone_getToken_counter (pw : string) (r : Iphone.TokenResponse) (t : Iphone.App) :
  Iphone.processedWordCountRef (fst (Iphone.getToken pw r t))
  = Iphone.processedWordCountRef t.
Proof.
  unfold Iphone.getToken. destruct (negb (truthy pw)); [done|].
  by destruct (Iphone.token_of_response r).
Qed.

Lemma iphone_step_counter (e : Iphone.Event) (t t' : Iphone.App) :
  Iphone.step e t = Some t' -> iphone_counter_ok t -> iphone_counter_ok t'.
Proof.
  unfold iphone_counter_ok.
  intros Hstep Hd.
  destruct e as [text|text|r c|text|r| |r|code| |pe]; simpl in Hstep.
  - destruct (Iphone.isConnected t); [|done]. injection Hstep as <-.
    rewrite iphone_onPartialTranscript_spec. destruct (_ <=? _); [|done].
    cbn -[Nat.divide enqueue_phrase].
    apply Nat.divide_add_r; [exact Hd | apply Nat.divide_refl].
  - destruct (Iphone.isConnected t); [|done]. injection Hstep as <-.
    rewrite iphone_onCommittedTranscript_spec.
    destruct (_ <? _); [apply Nat.divide_0_r|].
    destruct (truthy text && truthy (trim text)); [apply Nat.divide_0_r | done].
  - destruct (truthy (Iphone.password t) && bool_decide (is_Some (Iphone.token t)));
      [|done].
    injection Hstep as <-. unfold Iphone.handleStartStop.
    destruct (Iphone.isConnected t); [apply Nat.divide_0_r|].
    unfold Iphone.start. destruct (negb (truthy (Iphone.password t))); [done|].
    match goal with
    | |- context [Iphone.getToken ?pw r ?x] =>
        pose proof (iphone_getToken_counter pw r x) as Hp;
        destruct (Iphone.getToken pw r x) as [t2 [e|tok]]
    end; cbn [fst] in Hp.
    + cbn -[Nat.divide]. by rewrite Hp.
    + destruct c; cbn -[Nat.divide]; by rewrite Hp.
  - destruct (truthy (Iphone.password t)); [done|]. by injection Hstep as <-.
  - destruct (truthy (Iphone.password t)); [done|]. injection Hstep as <-.
    unfold Iphone.handlePasswordSubmit.
    destruct (negb (truthy (trim (Iphone.passwordInput t)))); [done|].
    match goal with
    | |- context [Iphone.getToken ?pw r ?x] =>
        pose proof (iphone_getToken_counter pw r x) as Hp;
        destruct (Iphone.getToken pw r x) as [t2 [e|tok]]
    end; cbn [fst] in Hp; cbn -[Nat.divide]; by rewrite Hp.
  - destruct (truthy (Iphone.password t)); [|done]. by injection Hstep as <-.
  - injection Hstep as <-. unfold Iphone.token_effect.
    destruct (_ && _); [|done]. by rewrite iphone_getToken_counter.
  - destruct (truthy (Iphone.password t) && negb (Iphone.isConnected t)); [|done].
    by injection Hstep as <-.
  - injection Hstep as <-. apply Nat.divide_0_r.
  - destruct (pipe_step IphoneView pe (Iphone.pipe t)); [|done].
    by injection Hstep as <-.
Qed.

(** In every state either view reaches, the processed-word counter is a
    multiple of the phrase size; in the default view it is positive exactly
    when a partial is retained as dedup baseline. *)
Theorem counters_count_whole_phrases
    (es : list Default.Event) (s' : Default.App)
    (et : list Iphone.Event) (storage : gmap string string) (t' : Iphone.App) :
  Default.run es Default.initial = Some s' ->
  Iphone.run et (Iphone.mount storage) = Some t' ->
  default_counter_ok s' /\ iphone_counter_ok t'.
Proof.
  intros Hs Ht. split.
  - assert (H0 : default_counter_ok Default.initial).
    { split; [apply Nat.divide_0_r | done]. }
    revert Hs H0. generalize Default.initial as s. revert s'.
    induction es as [|e es IH]; intros s' s Hrun H; simpl in Hrun.
    + by injection Hrun as <-.
    + destruct (Default.step e s) as [s1|] eqn:E; [|done].
      apply (IH s' s1 Hrun). by eapply default_step_counter.
  - assert (H0 : iphone_counter_ok (Iphone.mount storage)) by apply Nat.divide_0_r.
    revert Ht H0. generalize (Iphone.mount storage) as t. revert t'.
    induction et as [|e et IH]; intros t' t Hrun H; simpl in Hrun.
    + by injection Hrun as <-.
    + destruct (Iphone.step e t) as [t1|] eqn:E; [|done].
      apply (IH t' t1 Hrun). by eapply iphone_step_counter.
Qed.

Lemma counters_count_whole_phrases_witness :
  match Default.run (Default.StartStop :: three_translations) Default.initial,
        Iphone.run [Iphone.TokenEffect (token_ok "t0");
                    Iphone.StartStop (token_ok "t1") true;
                    Iphone.PartialTranscript twenty_words]
          (Iphone.mount {[ Iphone.PASSWORD_STORAGE_KEY := "secret" ]}) with
  | Some s', Some t' => default_counter_ok s' /\ iphone_counter_ok t'
  | _, _ => False
  end.
Proof.
  destruct (Default.run _ Default.initial) as [s'|] eqn:Hs;
    [|vm_compute in Hs; discriminate Hs].
  destruct (Iphone.run _ (Iphone.mount _)) as [t'|] eqn:Ht;
    [|vm_compute in Ht; discriminate Ht].
  exact (counters_count_whole_phrases _ _ _ _ _ Hs Ht).
Defined.

End Invariants.

(** ** PROCESS 1: the recogniser *)

Section Recogniser.

(** The special case for Latvian agrees with the general rule: the tag is
    always the language code, a hyphen, and the code in upper case. *)
Theorem recognition_lang_rule (code : string) :
  Recognition.recognition_lang code
  = code +:+ "-" +:+ Recognition.toUpperCase code.
Proof.
  unfold Recognition.recognition_lang.
  destruct (String.eqb_spec code "lv") as [->|]; done.
Qed.


Lemma Forall_alter_keep {A} (P : A -> Prop) (g : A -> A) (i : nat) (l : list A) :
  (forall x, P x -> P (g x)) -> Forall P l -> Forall P (alter g i l).
Proof.
  intros Hg H. revert i. induction H as [|a l Ha Hl IH]; intros [|i]; simpl.
  - constructor.
  - constructor.
  - constructor; [by apply Hg | exact Hl].
  - constructor; [exact Ha | apply IH].
Qed.


Lemma made_onend (i : nat) (st : Recognition.RecState) :
  made_while_listening st -> made_while_listening (Recognition.onend i st).
Proof.
  unfold made_while_listening, Recognition.onend. intros H. cbn.
  apply Forall_alter_keep; [|exact H]. intros [? ? ? [] ?]; done.
Qed.







End Recogniser.

(** ** [App.tsx] *)

Section ViewChoice.

Lemma ci_eqb_upper (a b : ascii) :
  AppView.ci_eqb a b = true <-> Recognition.upper_ascii a = Recognition.upper_ascii b.
Proof. unfold AppView.ci_eqb. apply Ascii.eqb_eq. Qed.

Lemma toUpperCase_app (a b : string) :
  Recognition.toUpperCase (a +:+ b)
  = Recognition.toUpperCase a +:+ Recognition.toUpperCase b.
Proof.
  induction a as [|c r IH]; [done|]. rewrite append_cons. cbn.
  by rewrite IH.
Qed.

Lemma toUpperCase_length (a : string) :
  String.length (Recognition.toUpperCase a) = String.length a.
Proof. induction a as [|c r IH]; [done|]. cbn. by rewrite IH. Qed.

Lemma ci_prefix_spec (pat s : string) :
  AppView.ci_prefix pat s = true
  <-> exists w suf, s = w +:+ suf
                    /\ Recognition.toUpperCase w = Recognition.toUpperCase pat.
Proof.
  revert s. induction pat as [|a pat IH]; intros s.
  - split; [intros _; by exists EmptyString, s|done].
  - destruct s as [|b s]; cbn [AppView.ci_prefix].
    + split; [done|]. intros (w & suf & Hs & Hw).
      destruct w; [done|]. by rewrite append_cons in Hs.
    + rewrite andb_true_iff, ci_eqb_upper, IH. split.
      * intros (Hab & w & suf & -> & Hw). exists (String b w), suf.
        split; [done|]. cbn. by rewrite Hw, Hab.
      * intros (w & suf & Hs & Hw). destruct w as [|c w]; [done|].
        rewrite append_cons in Hs. injection Hs as Hb Hs. subst b s.
        cbn in Hw. injection Hw as Hc Hw. split; [done|]. by exists w, suf.
Qed.

(** The test finds the pattern exactly when the text contains, somewhere, a
    piece that equals the pattern up to the case of its letters. *)
Lemma ci_test_spec (pat s : string) :
  AppView.ci_test pat s = true
  <-> exists pre w suf, s = pre +:+ w +:+ suf
                        /\ Recognition.toUpperCase w = Recognition.toUpperCase pat.
Proof.
  induction s as [|b s IH]; cbn [AppView.ci_test].
  - rewrite orb_false_r, ci_prefix_spec. split.
    + intros (w & suf & Hs & Hw). by exists EmptyString, w, suf.
    + intros (pre & w & suf & Hs & Hw). destruct pre; [|done].
      by exists w, suf.
  - rewrite orb_true_iff, ci_prefix_spec, IH. split.
    + intros [(w & suf & Hs & Hw)|(pre & w & suf & -> & Hw)].
      * by exists EmptyString, w, suf.
      * by exists (String b pre), w, suf.
    + intros (pre & w & suf & Hs & Hw). destruct pre as [|c pre].
      * left. by exists w, suf.
      * right. rewrite append_cons in Hs. injection Hs as Hb Hs. subst b s.
        by exists pre, w, suf.
Qed.

(** The iPhone view is rendered exactly when the build forces it (the
    variable is the string "true") or the user agent contains "iphone",
    "ipad" or "ipod" in any mix of upper and lower case; every other user
    agent gets the default view. *)
Theorem view_choice (userAgent : string) (env : option string) :
  AppView.App userAgent env = IphoneView
  <-> env = Some "true"
      \/ exists pre w suf,
           userAgent = pre +:+ w +:+ suf
           /\ In (Recognition.toUpperCase w) ["IPHONE"; "IPAD"; "IPOD"].
Proof.
  unfold AppView.App, AppView.isIOS, AppView.FORCE_IPHONE_VIEW.
  split.
  - destruct (AppView.ci_test "iPhone" userAgent) eqn:E1.
    { intros _. right. apply ci_test_spec in E1 as (pre & w & suf & Hs & Hw).
      exists pre, w, suf. split; [done|]. left. by rewrite Hw. }
    destruct (AppView.ci_test "iPad" userAgent) eqn:E2.
    { intros _. right. apply ci_test_spec in E2 as (pre & w & suf & Hs & Hw).
      exists pre, w, suf. split; [done|]. right. left. by rewrite Hw. }
    destruct (AppView.ci_test "iPod" userAgent) eqn:E3.
    { intros _. right. apply ci_test_spec in E3 as (pre & w & suf & Hs & Hw).
      exists pre, w, suf. split; [done|]. right. right. left. by rewrite Hw. }
    cbn [orb]. destruct env as [v|]; [|done].
    destruct (String.eqb_spec v "true") as [->|]; [by left | done].
  - intros [->|(pre & w & suf & Hs & Hin)].
    + by rewrite !orb_true_r.
    + assert (H : AppView.ci_test "iPhone" userAgent = true
                  \/ AppView.ci_test "iPad" userAgent = true
                  \/ AppView.ci_test "iPod" userAgent = true).
      { destruct Hin as [H|[H|[H|[]]]];
          [left | right; left | right; right];
          apply ci_test_spec; exists pre, w, suf; by rewrite <- H. }
      destruct H as [-> | [-> | ->]]; by rewrite ?orb_true_r.
Qed.

End ViewChoice.

(** ** The ledger *)

Section Ledger.

Lemma split_ws_hd_tl (s : string) : split_ws s = hd_piece s :: tl_pieces s.
Proof.
  unfold hd_piece, tl_pieces. destruct (split_ws s) eqn:E; [|done].
  by destruct (split_ws_not_nil s).
Qed.

Lemma words_pieces (s : string) :
  words s = List.filter truthy (hd_piece s :: tl_pieces s).
Proof. unfold words. by rewrite <- split_ws_hd_tl. Qed.

Lemma split_ws_cons_nonspace (c : ascii) (r : string) :
  is_space c = false ->
  hd_piece (String c r) = String c (hd_piece r)
  /\ tl_pieces (String c r) = tl_pieces r.
Proof.
  intros Hc. unfold hd_piece, tl_pieces. cbn [split_ws]. rewrite Hc.
  rewrite (split_ws_hd_tl r). done.
Qed.

Lemma hd_piece_space (s : string) : starts_with_space s = true -> hd_piece s = EmptyString.
Proof.
  induction s as [|c r IH]; [done|]. cbn [starts_with_space]. intros Hc.
  unfold hd_piece in *. cbn [split_ws]. rewrite Hc.
  destruct r as [|c' r']; [done|].
  destruct (starts_with_space (String c' r')) eqn:E; [by apply IH | done].
Qed.

Lemma split_ws_cons_space (c : ascii) (r : string) :
  is_space c = true ->
  hd_piece (String c r) = EmptyString
  /\ List.filter truthy (tl_pieces (String c r)) = words r.
Proof.
  intros Hc. split; [by apply hd_piece_space|].
  unfold tl_pieces. cbn [split_ws]. rewrite Hc.
  destruct r as [|c' r']; [done|].
  destruct (starts_with_space (String c' r')) eqn:E; [|done].
  rewrite words_pieces, (hd_piece_space _ E). done.
Qed.

Lemma words_cons_space (c : ascii) (r : string) :
  is_space c = true -> words (String c r) = words r.
Proof.
  intros Hc. rewrite (words_pieces (String c r)).
  destruct (split_ws_cons_space c r Hc) as [H1 H2]. rewrite H1.
  cbn [List.filter truthy]. exact H2.
Qed.

Lemma pieces_app_sep (a b : string) :
  hd_piece (a +:+ " " +:+ b) = hd_piece a
  /\ List.filter truthy (tl_pieces (a +:+ " " +:+ b))
     = List.filter truthy (tl_pieces a) ++ words b.
Proof.
  induction a as [|c a IH].
  - rewrite append_nil. change (" " +:+ b) with (String " " b).
    destruct (split_ws_cons_space " " b eq_refl) as [-> ->]. done.
  - rewrite append_cons. destruct IH as [IH1 IH2].
    destruct (is_space c) eqn:Hc.
    + destruct (split_ws_cons_space c (a +:+ " " +:+ b) Hc) as [-> ->].
      destruct (split_ws_cons_space c a Hc) as [-> ->].
      split; [done|].
      rewrite (words_pieces (a +:+ " " +:+ b)), (words_pieces a), IH1.
      cbn [List.filter]. rewrite IH2. by destruct (truthy (hd_piece a)).
    + destruct (split_ws_cons_nonspace c (a +:+ " " +:+ b) Hc) as [-> ->].
      destruct (split_ws_cons_nonspace c a Hc) as [-> ->].
      by rewrite IH1, IH2.
Qed.

(** The words of two texts joined by a space are the words of the one
    followed by the words of the other. *)
Lemma words_app_sep (a b : string) : words (a +:+ " " +:+ b) = words a ++ words b.
Proof.
  rewrite (words_pieces (a +:+ " " +:+ b)), (words_pieces a).
  destruct (pieces_app_sep a b) as [-> H]. cbn [List.filter]. rewrite H.
  by destruct (truthy (hd_piece a)).
Qed.

Lemma words_trimStart (s : string) : words (trimStart s) = words s.
Proof.
  induction s as [|c r IH]; [done|]. cbn [trimStart].
  destruct (is_space c) eqn:Hc; [|done]. by rewrite IH, words_cons_space.
Qed.

Lemma pieces_trimEnd (s : string) :
  hd_piece (trimEnd s) = hd_piece s
  /\ List.filter truthy (tl_pieces (trimEnd s)) = List.filter truthy (tl_pieces s).
Proof.
  induction s as [|c r [IH1 IH2]]; [done|]. cbn [trimEnd].
  assert (Hw : words (trimEnd r) = words r).
  { rewrite (words_pieces (trimEnd r)), (words_pieces r), IH1.
    cbn [List.filter]. by rewrite IH2. }
  destruct (trimEnd r) as [|c' t'] eqn:Et.
  - destruct (is_space c) eqn:Hc.
    + destruct (split_ws_cons_space c r Hc) as [-> ->]. by rewrite <- Hw.
    + destruct (split_ws_cons_nonspace c r Hc) as [-> ->].
      destruct (split_ws_cons_nonspace c EmptyString Hc) as [-> ->].
      by rewrite <- IH1, <- IH2.
  - destruct (is_space c) eqn:Hc.
    + destruct (split_ws_cons_space c r Hc) as [-> ->].
      destruct (split_ws_cons_space c (String c' t') Hc) as [-> ->]. done.
    + destruct (split_ws_cons_nonspace c r Hc) as [-> ->].
      destruct (split_ws_cons_nonspace c (String c' t') Hc) as [-> ->].
      by rewrite IH1, IH2.
Qed.

(** Trimming a text does not change its words. *)
Lemma words_trim (s : string) : words (trim s) = words s.
Proof.
  unfold trim. rewrite <- (words_trimStart s).
  rewrite !(words_pieces (trimEnd _)), (words_pieces (trimStart s)).
  destruct (pieces_trimEnd (trimStart s)) as [-> H]. cbn [List.filter]. by rewrite H.
Qed.

Lemma default_renders_ledger (fuel : nat) (s : Default.App) :
  Default.allProcessedTextRef (Default.renders_after_wordArray fuel s)
  = Default.allProcessedTextRef s.
Proof.
  revert s. induction fuel as [|fuel IH]; intros s;
    cbn [Default.renders_after_wordArray]; [done|].
  destruct (Default.WORDS_PER_PHRASE <=? length (Default.wordArray s)); [|done].
  by rewrite IH.
Qed.

(** The ledger records words and nothing else: every recognition event
    appends to the words of the ledger exactly the words it consumed, in
    order.  A final consumes the words of its new text, an interim the N
    words of the phrase it emits. *)
Theorem default_ledger_records_consumed_words
    (results : list Default.Result) (s : Default.App) :
  let it := trim (fst (Default.collect results EmptyString EmptyString)) in
  let ft := trim (snd (Default.collect results EmptyString EmptyString)) in
  words (Default.allProcessedTextRef (Default.onresult results s))
  = words (Default.allProcessedTextRef s)
      ++ (if truthy ft then words (Default.textToAdd_of s ft)
          else if truthy it then interim_words s it
          else []).
Proof.
  cbv zeta. unfold Default.onresult.
  destruct (Default.collect results EmptyString EmptyString) as [it ft]. cbn [fst snd].
  destruct (truthy (trim ft)).
  - unfold Default.settle_words. rewrite default_renders_ledger.
    unfold Default.on_final.
    destruct (truthy (Default.textToAdd_of s (trim ft))) eqn:Ht;
      cbn [Default.allProcessedTextRef Default.set_processedWordCountRef
             Default.set_lastInterimRef Default.set_allProcessedTextRef
             Default.set_wordArray].
    + by rewrite words_trim, words_app_sep.
    + destruct (Default.textToAdd_of s (trim ft)); [|done]. by rewrite app_nil_r.
  - destruct (truthy (trim it)); [|by rewrite app_nil_r].
    rewrite default_on_interim_spec. unfold interim_words.
    destruct (_ <=? _);
      cbn [Default.allProcessedTextRef Default.set_pipe].
    + rewrite words_trim, words_app_sep. f_equal.
      apply words_join, slice_Forall, words_are_words.
    + by rewrite app_nil_r.
Qed.

End Ledger.
